(** * Verification of the Runge-Kutta engine of [rk.py]

    The class [RK] of [rk.py] is embedded as a record with its five methods
    ([__init__], [phi], [kappa], [yk1], [aplicar]).

    Numbers.  The Python code never names a numeric type: it adds,
    multiplies, rounds and compares whatever the caller supplies.  The
    embedding follows that duck typing with the class [Number]; its two
    instances are the exact Python number types, [int] (as [Z]) and
    [fractions.Fraction] (as [Q], every operation returning the reduced
    fraction), and, further down, [float] (as the binary64 numbers of the
    kernel).  The theorems of the generic sections hold for any arithmetic
    whatsoever; the others say which numbers they are about.

    Failure.  A Python call either returns or raises; a method is a function
    into [result].  The [while True] loop of [aplicar] may run forever; it
    is given fuel and answers [None] when the fuel is spent. *)

From Stdlib Require Import List ZArith QArith Qround Qabs String Bool Lia Lqa Arith.
From Stdlib Require Floats.PrimFloat Floats.SpecFloat Floats.FloatOps.
Import (notations) PrimFloat.
Import ListNotations.

Set Implicit Arguments.
Close Scope Q_scope.
Open Scope nat_scope.

(** ** Exceptions and results *)

Inductive exception : Type :=
| IndexError
| RecursionError
| Raised (name : string).

Inductive result (A : Type) : Type :=
| Ok (a : A)
| Err (e : exception).

Arguments Ok {A} a.
Arguments Err {A} e.

Definition bind {A B : Type} (m : result A) (k : A -> result B) : result B :=
  match m with
  | Ok a => k a
  | Err e => Err e
  end.

Declare Scope py_scope.
Delimit Scope py_scope with py.
Notation "x <- m ;; k" := (bind m (fun x => k))
  (at level 61, m at next level, right associativity) : py_scope.
Open Scope py_scope.

(** [xs[i]] for an index [i >= 0]: [IndexError] past the end. *)
Definition index {A : Type} (xs : list A) (i : nat) : result A :=
  match nth_error xs i with
  | Some x => Ok x
  | None => Err IndexError
  end.

(** [range(k)] for [k >= 0]. *)
Definition range (k : nat) : list nat := seq 0 k.

(** A list comprehension [[body(i) for i in ixs]]: the items are evaluated in
    order and the first exception ends the evaluation. *)
Fixpoint comprehension {A B : Type} (body : A -> result B) (ixs : list A)
  : result (list B) :=
  match ixs with
  | [] => Ok []
  | i :: rest =>
      x <- body i ;;
      xs <- comprehension body rest ;;
      Ok (x :: xs)
  end.

(** ** The numbers of the program *)

Class Number (num : Type) : Type := {
  of_int : Z -> num;                 (* an [int] literal used as a [num] *)
  add : num -> num -> num;           (* [x + y] *)
  mul : num -> num -> num;           (* [x * y] *)
  round : num -> Z -> num;           (* [round(x, ndigits)] *)
  ge : num -> num -> bool            (* [x >= y] *)
}.

(** Rounding half to even of [num/den] to an integer, as [int.__round__]
    and [Fraction.__round__] do it from [divmod]. *)
Definition round_half_even (num den : Z) : Z :=
  let floor := (num / den)%Z in
  let remainder := (num mod den)%Z in
  if (remainder * 2 <? den)%Z then floor
  else if (den <? remainder * 2)%Z then (floor + 1)%Z
  else if Z.even floor then floor
  else (floor + 1)%Z.

(** Python [int]: [round(x, ndigits)] is [x] itself for [ndigits >= 0]. *)
Definition int_round (x ndigits : Z) : Z :=
  if (0 <=? ndigits)%Z then x
  else let p := (10 ^ (- ndigits))%Z in (round_half_even x p * p)%Z.

#[export] Instance int_Number : Number Z := {
  of_int := fun z => z;
  add := Z.add;
  mul := Z.mul;
  round := int_round;
  ge := Z.geb
}.

(** Python [fractions.Fraction]: every result is in lowest terms. *)
Definition Fraction_add (x y : Q) : Q := Qred (x + y).
Definition Fraction_mul (x y : Q) : Q := Qred (x * y).

(** [Fraction.__round__(self, ndigits)]:
    [shift = 10**abs(ndigits)];
    [Fraction(round(self * shift), shift)] when [ndigits > 0],
    [Fraction(round(self / shift) * shift)] otherwise. *)
Definition Fraction_round (x : Q) (ndigits : Z) : Q :=
  let shift := (10 ^ Z.abs ndigits)%Z in
  if (0 <? ndigits)%Z then
    let xs := (x * inject_Z shift)%Q in
    Qred (Qmake (round_half_even (Qnum xs) (Zpos (Qden xs))) (Z.to_pos shift))
  else
    let xs := (x / inject_Z shift)%Q in
    inject_Z (round_half_even (Qnum xs) (Zpos (Qden xs)) * shift).

#[export] Instance Fraction_Number : Number Q := {
  of_int := inject_Z;
  add := Fraction_add;
  mul := Fraction_mul;
  round := Fraction_round;
  ge := fun x y => Qle_bool y x
}.

(** ** The class [RK] *)

Section RungeKutta.

Context {num : Type} {NumOps : Number num}.

(** [sum(items)]: starts from the [int] 0 and adds the items from the left;
    an item that raises ends the sum. *)
Fixpoint sum_from (acc : num) (items : list (result num)) : result num :=
  match items with
  | [] => Ok acc
  | item :: rest =>
      x <- item ;;
      sum_from (add acc x) rest
  end.

Definition sum (items : list (result num)) : result num :=
  sum_from (of_int 0) items.

(** A derivative function [f(t, *y)]; it may raise. *)
Definition func : Type := num -> list num -> result num.

Record RK : Type := {
  R : nat;                           (* quantidade de estagios *)
  n : nat;                           (* dimensao *)
  f : list func;                     (* vetor de funcoes *)
  t0 : num;                          (* instante inicial *)
  y0 : list num;                     (* condicoes iniciais *)
  h : num;                           (* tamanho do passo *)
  a : list (list num);               (* matriz de Runge-Kutta *)
  b : list num;                      (* coeficientes de peso *)
  c : list num;                      (* somas das linhas de [a] *)
  qntdCasasArredondamento : Z
}.

(** [sum(ai)] over a row of numbers. *)
Definition row_sum (ai : list num) : num :=
  fold_left add ai (of_int 0).

Definition __init__ (f : list func) (t0 : num) (y0 : list num) (h : num)
    (R : nat) (a : list (list num)) (b : list num) : result RK :=
  Ok {| R := R;
        n := List.length f;
        f := f;
        t0 := t0;
        y0 := y0;
        h := h;
        a := a;
        b := b;
        c := map row_sum a;
        qntdCasasArredondamento := 10 |}.

(** [kappa] calls itself on the stages of [range(r-1)], all below [r]; the
    recursion is written on a depth, and [kappa] starts it at [r + 1],
    which it never exhausts. *)
Fixpoint kappa_rec (depth : nat) (self : RK) (f : func) (t : num)
    (y : list num) (r : nat) : result num :=
  match depth with
  | O => Err RecursionError
  | S depth' =>
      cr <- index (c self) r ;;
      let instante := add t (mul (h self) cr) in
      termos_y <- comprehension (fun i =>
          yi <- index y i ;;
          acc <- sum (map (fun s =>
                   ar <- index (a self) r ;;
                   ars <- index ar s ;;
                   ks <- kappa_rec depth' self f t y s ;;
                   Ok (mul ars ks)) (range (r - 1))) ;;
          Ok (add yi (mul (h self) acc))) (range (n self)) ;;
      f instante termos_y
  end.

Definition kappa (self : RK) (f : func) (t : num) (y : list num) (r : nat)
  : result num :=
  kappa_rec (S r) self f t y r.

Definition phi (self : RK) (f : func) (t : num) (y : list num) : result num :=
  sum (map (fun r =>
         br <- index (b self) r ;;
         kr <- kappa self f t y r ;;
         Ok (mul br kr)) (range (R self))).

Definition yk1 (self : RK) (tk : num) (yk : list num)
  : result (num * list num) :=
  let tk1 := add tk (h self) in
  yk1 <- comprehension (fun i =>
      yi <- index yk i ;;
      fi <- index (f self) i ;;
      p <- phi self fi tk yk ;;
      Ok (add yi (mul (h self) p))) (range (n self)) ;;
  Ok (tk1, yk1).

(** The loop of [aplicar]: one step, one appended record, then the test. *)
Fixpoint aplicar_loop (fuel : nat) (self : RK) (tf : num) (tk : num)
    (yk : list num) (pontos : list (list num))
  : option (result (list (list num))) :=
  match fuel with
  | O => None
  | S fuel' =>
      match yk1 self tk yk with
      | Err e => Some (Err e)
      | Ok (tk', yk') =>
          let pontos' := pontos ++ [tk' :: yk'] in
          if ge (round tk' (qntdCasasArredondamento self)) tf
          then Some (Ok pontos')
          else aplicar_loop fuel' self tf tk' yk' pontos'
      end
  end.

Definition aplicar (fuel : nat) (self : RK) (tf : num)
  : option (result (list (list num))) :=
  aplicar_loop fuel self tf (t0 self) (y0 self) [t0 self :: y0 self].

(** The records appended by the loop started at [(tk, yk)], when it ends
    normally: the last one is the first whose rounded instant reaches [tf]. *)
Inductive run_from (self : RK) (tf : num)
  : num -> list num -> list (list num) -> Prop :=
| run_stop (tk : num) (yk : list num) (tk' : num) (yk' : list num) :
    yk1 self tk yk = Ok (tk', yk') ->
    ge (round tk' (qntdCasasArredondamento self)) tf = true ->
    run_from self tf tk yk [tk' :: yk']
| run_cont (tk : num) (yk : list num) (tk' : num) (yk' : list num)
    (rest : list (list num)) :
    yk1 self tk yk = Ok (tk', yk') ->
    ge (round tk' (qntdCasasArredondamento self)) tf = false ->
    run_from self tf tk' yk' rest ->
    run_from self tf tk yk ((tk' :: yk') :: rest).

(** The loop state [(tk, yk)] at the start of iteration [k] of [aplicar]:
    [k] steps were taken and none of them stopped the loop. *)
Inductive loop_reaches (self : RK) (tf : num) : nat -> num -> list num -> Prop :=
| reaches_start : loop_reaches self tf 0 (t0 self) (y0 self)
| reaches_next (k : nat) (tk : num) (yk : list num) (tk' : num)
    (yk' : list num) :
    loop_reaches self tf k tk yk ->
    yk1 self tk yk = Ok (tk', yk') ->
    ge (round tk' (qntdCasasArredondamento self)) tf = false ->
    loop_reaches self tf (S k) tk' yk'.

(** The stage function in the words of the specification: the shifted state
    of stage [r] sums over every stage [s < r].  It differs from [kappa] in
    the range alone. *)
Fixpoint stage_spec_rec (depth : nat) (self : RK) (f : func) (t : num)
    (y : list num) (r : nat) : result num :=
  match depth with
  | O => Err RecursionError
  | S depth' =>
      cr <- index (c self) r ;;
      let instante := add t (mul (h self) cr) in
      termos_y <- comprehension (fun i =>
          yi <- index y i ;;
          acc <- sum (map (fun s =>
                   ar <- index (a self) r ;;
                   ars <- index ar s ;;
                   ks <- stage_spec_rec depth' self f t y s ;;
                   Ok (mul ars ks)) (range r)) ;;
          Ok (add yi (mul (h self) acc))) (range (n self)) ;;
      f instante termos_y
  end.

Definition stage_spec (self : RK) (f : func) (t : num) (y : list num)
    (r : nat) : result num :=
  stage_spec_rec (S r) self f t y r.

(** The instant of a record [[tk, *yk]]. *)
Definition instant (record : list num) : option num := hd_error record.

End RungeKutta.

(** ** Example systems *)

(** [lambda t, y: y], the right-hand side of [y' = y]; called with another
    number of state components it raises [TypeError]. *)
Definition growth {num : Type} : @func num :=
  fun _ ys =>
    match ys with
    | [y] => Ok y
    | _ => Err (Raised "TypeError")
    end.

(** The two-stage tableau of the examples, [a = [[0, 0], [2/3, 0]]] and
    [b = [1/4, 3/4]], on [y' = y], [y(0) = 1], with [h = 1/10]. *)
Definition a_rk2 : list (list Q) := [[0; 0]; [2 # 3; 0]]%Q.
Definition b_rk2 : list Q := [1 # 4; 3 # 4]%Q.

Definition rk_growth : result (@RK Q) :=
  __init__ [growth] 0%Q [1%Q] (1 # 10)%Q 2 a_rk2 b_rk2.

(** Its trajectory up to [tf = 1]: the instants are the tenths, the state
    grows by the factor 11/10 at each step. *)
Definition growth_trajectory : list (list Q) :=
  [[0; 1];
   [1 # 10; 11 # 10];
   [1 # 5; 121 # 100];
   [3 # 10; 1331 # 1000];
   [2 # 5; 14641 # 10000];
   [1 # 2; 161051 # 100000];
   [3 # 5; 1771561 # 1000000];
   [7 # 10; 19487171 # 10000000];
   [4 # 5; 214358881 # 100000000];
   [9 # 10; 2357947691 # 1000000000];
   [1; 25937424601 # 10000000000]]%Q.

(** The same system with a step just short of one. *)
Definition rk_short_step : result (@RK Q) :=
  __init__ [growth] 0%Q [1%Q] (99999999999 # 100000000000)%Q 2 a_rk2 b_rk2.



(** A tableau that is not explicit and whose weights are too few, on
    integers. *)
Definition rk_malformed : result (@RK Z) :=
  __init__ [growth] 0%Z [1%Z] 1%Z 2 [[1; 1]; [1; 1]]%Z [1%Z].

(** Running a constructed integrator. *)
Definition run {num : Type} {NumOps : Number num} (fuel : nat)
    (made : result (@RK num)) (tf : num)
  : option (result (list (list num))) :=
  match made with
  | Ok rk => aplicar fuel rk tf
  | Err e => Some (Err e)
  end.

(** Half a unit of the tenth decimal place. *)
Definition half_ulp : Q := (1 # 20000000000)%Q.


(** ** Further example systems *)

(** The matrix of [a_rk2] with the entry of its second row moved onto the
    diagonal: the same row sums. *)
Definition a_rk2_diagonal : list (list Q) := [[0; 0]; [0; 2 # 3]]%Q.

(** The growth system started without any state. *)
Definition rk_no_state : result (@RK Q) :=
  __init__ [growth] 0%Q [] (1 # 10)%Q 2 a_rk2 b_rk2.

(** ** The example scripts [ex1.py] and [ex2.py]

    Both scripts build the initial state from the positions and momenta of
    the bodies, run the integrator, and cut the trajectory into one series
    of frames per body.  The module-level names they read ([m],
    [posicoes_iniciais], [momentos_iniciais], [ph]) are arguments here. *)

Section Scripts.

Context {num : Type} {NumOps : Number num}.

(** The loop [for i in range(len(m)): y0.append(...)] that fills [y0]. *)
Fixpoint y0_append (ixs : list nat)
    (posicoes_iniciais momentos_iniciais : list (list num)) (y0 : list num)
  : result (list num) :=
  match ixs with
  | [] => Ok y0
  | i :: rest =>
      pi <- index posicoes_iniciais i ;;
      x <- index pi 0 ;;
      let y0 := y0 ++ [x] in
      qi <- index momentos_iniciais i ;;
      px <- index qi 0 ;;
      let y0 := y0 ++ [px] in
      pi <- index posicoes_iniciais i ;;
      y <- index pi 1 ;;
      let y0 := y0 ++ [y] in
      qi <- index momentos_iniciais i ;;
      py <- index qi 1 ;;
      let y0 := y0 ++ [py] in
      y0_append rest posicoes_iniciais momentos_iniciais y0
  end.

(** [y0 = []] followed by the loop. *)
Definition condicoes_iniciais {M : Type} (m : list M)
    (posicoes_iniciais momentos_iniciais : list (list num))
  : result (list num) :=
  y0_append (range (List.length m)) posicoes_iniciais momentos_iniciais [].

(** The first elements of all the rows, unless a row is exhausted. *)
Fixpoint heads {A : Type} (rows : list (list A)) : option (list A) :=
  match rows with
  | [] => Some []
  | [] :: _ => None
  | (x :: _) :: rest =>
      match heads rest with
      | Some xs => Some (x :: xs)
      | None => None
      end
  end.

(** [zip] over the rows: one tuple per position, until a row is exhausted;
    the first row bounds the number of tuples. *)
Fixpoint zip_columns {A : Type} (first : list A) (rows : list (list A))
  : list (list A) :=
  match first with
  | [] => []
  | _ :: first' =>
      match heads rows with
      | Some column => column :: zip_columns first' (map (@tl A) rows)
      | None => []
      end
  end.

(** [list(zip( *rows))]. *)
Definition zip_star {A : Type} (rows : list (list A)) : list (list A) :=
  match rows with
  | [] => []
  | first :: _ => zip_columns first rows
  end.

(** Every [skip + 1]-th element of [xs], the first one after [wait]
    elements. *)
Fixpoint stride_from {A : Type} (skip wait : nat) (xs : list A) : list A :=
  match xs with
  | [] => []
  | x :: rest =>
      match wait with
      | O => x :: stride_from skip skip rest
      | S wait' => stride_from skip wait' rest
      end
  end.

(** [xs[::ph]] for [ph >= 0]; a zero step raises [ValueError]. *)
Definition slice_step {A : Type} (xs : list A) (ph : nat) : result (list A) :=
  match ph with
  | O => Err (Raised "ValueError")
  | S skip => Ok (stride_from skip 0 xs)
  end.

(** The cut of the trajectory into frames: [pontos = list(zip( *pontos))],
    then [eixos_x] and [eixos_y], the columns [4*i+1] and [4*i+3] of body
    [i] taken every [ph] records. *)
Definition eixos {M : Type} (m : list M) (ph : nat) (pontos : list (list num))
  : result (list (list num) * list (list num)) :=
  let pontos := zip_star pontos in
  eixo_t <- index pontos 0 ;;
  let eixos_y := skipn 1 pontos in
  eixos_x <- comprehension (fun i =>
      column <- index pontos (4 * i + 1) ;;
      slice_step column ph) (range (List.length m)) ;;
  eixos_y <- comprehension (fun i =>
      column <- index pontos (4 * i + 3) ;;
      slice_step column ph) (range (List.length m)) ;;
  Ok (eixos_x, eixos_y).

(** The true division [x / y] of the numbers at hand; it may raise
    [ZeroDivisionError]. *)
Variable truediv : num -> num -> result num.

(** [fxa_ = lambda a, t, Ps: (1/m[a]) * Ps[4*a+1]], the velocity of body
    [a] along x. *)
Definition fxa_ (m : list num) (a : nat) (t : num) (Ps : list num)
  : result num :=
  ma <- index m a ;;
  inverse <- truediv (of_int 1) ma ;;
  p <- index Ps (4 * a + 1) ;;
  Ok (mul inverse p).

(** [fya_ = lambda a, t, Ps: (1/m[a]) * Ps[4*a+3]], the velocity of body
    [a] along y. *)
Definition fya_ (m : list num) (a : nat) (t : num) (Ps : list num)
  : result num :=
  ma <- index m a ;;
  inverse <- truediv (of_int 1) ma ;;
  p <- index Ps (4 * a + 3) ;;
  Ok (mul inverse p).

End Scripts.

(** The two bodies of [ex1.py]. *)
Definition m_ex1 : list Z := [5; 50]%Z.
Definition posicoes_iniciais_ex1 : list (list Z) := [[20; 20]; [-20; -20]]%Z.
Definition momentos_iniciais_ex1 : list (list Z) := [[-2; 2]; [0; 0]]%Z.
Definition y0_ex1 : list Z := [20; -2; 20; 2; -20; 0; -20; 0]%Z.

(** Eight equations of bodies that feel no force and do not move. *)
Definition at_rest : list (@func Z) := repeat (fun _ _ => Ok 0%Z) 8.

Definition rk_at_rest : result (@RK Z) :=
  __init__ at_rest 0%Z y0_ex1 1%Z 1 [[0%Z]] [1%Z].

(** The division of [fractions.Fraction]. *)
Definition Fraction_truediv (x y : Q) : result Q :=
  if Qeq_bool y 0 then Err (Raised "ZeroDivisionError")
  else Ok (Qred (x / y)).

(** The trajectory of the bodies at rest up to [tf = 3]. *)
Definition at_rest_trajectory : list (list Z) :=
  [[0; 20; -2; 20; 2; -20; 0; -20; 0];
   [1; 20; -2; 20; 2; -20; 0; -20; 0];
   [2; 20; -2; 20; 2; -20; 0; -20; 0];
   [3; 20; -2; 20; 2; -20; 0; -20; 0]]%Z.

(** The data of [ex1.py] as fractions. *)
Definition m_ex1_Q : list Q := map inject_Z m_ex1.
Definition posicoes_iniciais_ex1_Q : list (list Q) :=
  map (map inject_Z) posicoes_iniciais_ex1.
Definition momentos_iniciais_ex1_Q : list (list Q) :=
  map (map inject_Z) momentos_iniciais_ex1.

(** ** Python [float]

    The binary64 numbers of the kernel, with the operations as Python has
    them: [+], [*] and [>=] are those of IEEE 754 under rounding to
    nearest, ties to even; an [int] met by a [float] is converted first. *)

(** The [float] nearest to [p / q] for [q > 0], ties to even: what the
    true division [p / q] of two [int] returns, and what the literal of the
    decimal fraction [p / q] denotes. *)
Definition nearest_float (p q : Z) : PrimFloat.float :=
  match p, q with
  | Zpos p', Zpos q' =>
      FloatOps.SF2Prim
        (SpecFloat.SFdiv FloatOps.prec FloatOps.emax
           (SpecFloat.S754_finite false p' 0) (SpecFloat.S754_finite false q' 0))
  | Zneg p', Zpos q' =>
      FloatOps.SF2Prim
        (SpecFloat.SFdiv FloatOps.prec FloatOps.emax
           (SpecFloat.S754_finite true p' 0) (SpecFloat.S754_finite false q' 0))
  | _, _ => FloatOps.SF2Prim (SpecFloat.S754_zero false)
  end.

(** [float(z)]; beyond the range of [float] Python raises [OverflowError],
    here the result is an infinity. *)
Definition float_of_int (z : Z) : PrimFloat.float := nearest_float z 1.

(** [float.__round__(x, ndigits)]: a number that is not finite, and any
    number for [ndigits > 323], is returned as it is; for [ndigits < -308]
    the result is a zero of the sign of [x]; otherwise the exact value of
    [x] is rounded, half to even, to [ndigits] places and the [float]
    nearest to that decimal is returned, a zero keeping the sign of [x].
    (For [ndigits < 0] Python raises [OverflowError] when the decimal is
    beyond the range of [float]; here the result is an infinity.) *)
Definition float_round (x : PrimFloat.float) (ndigits : Z) : PrimFloat.float :=
  match FloatOps.Prim2SF x with
  | SpecFloat.S754_finite s m e =>
      if (323 <? ndigits)%Z then x
      else if (ndigits <? -308)%Z then PrimFloat.mul (float_of_int 0) x
      else
        let num := (Zpos m * 2 ^ Z.max e 0 * 10 ^ Z.max ndigits 0)%Z in
        let den := (2 ^ Z.max (- e) 0 * 10 ^ Z.max (- ndigits) 0)%Z in
        let rounded := round_half_even num den in
        let p := (rounded * 10 ^ Z.max (- ndigits) 0)%Z in
        let q := (10 ^ Z.max ndigits 0)%Z in
        if (rounded =? 0)%Z then FloatOps.SF2Prim (SpecFloat.S754_zero s)
        else nearest_float (if s then (- p)%Z else p) q
  | _ => x
  end.

#[export] Instance float_Number : Number PrimFloat.float := {
  of_int := float_of_int;
  add := PrimFloat.add;
  mul := PrimFloat.mul;
  round := float_round;
  ge := fun x y => PrimFloat.leb y x
}.

(** The exact value of a finite [float]; 0 for the others. *)
Definition float_value (x : PrimFloat.float) : Q :=
  match FloatOps.Prim2SF x with
  | SpecFloat.S754_finite s m e =>
      let magnitude :=
        (inject_Z (Zpos m * 2 ^ Z.max e 0) / inject_Z (2 ^ Z.max (- e) 0))%Q in
      if s then (- magnitude)%Q else magnitude
  | _ => 0%Q
  end.

(** The growth system on [float]: [t0 = 0], [y0 = [1.0]], [h = 0.1],
    [a = [[0, 0], [2/3, 0]]], [b = [1/4, 3/4]].  The [sum] of the model
    adds from the left; for the two terms of [phi] here that is also the
    result of the compensated [sum] of CPython 3.12. *)
Definition rk_growth_float : result (@RK PrimFloat.float) :=
  __init__ [growth] (float_of_int 0) [float_of_int 1] (nearest_float 1 10) 2
    [[float_of_int 0; float_of_int 0]; [nearest_float 2 3; float_of_int 0]]
    [nearest_float 1 4; nearest_float 3 4].

#[local] Set Warnings "-inexact-float".

(** Its trajectory up to [tf = 1.0], each number written as Python prints
    it. *)
Definition growth_trajectory_float : list (list PrimFloat.float) :=
  [[0.0; 1.0];
   [0.1; 1.1];
   [0.2; 1.2100000000000002];
   [0.30000000000000004; 1.3310000000000002];
   [0.4; 1.4641000000000002];
   [0.5; 1.61051];
   [0.6; 1.7715610000000002];
   [0.7; 1.9487171];
   [0.7999999999999999; 2.1435888100000002];
   [0.8999999999999999; 2.357947691];
   [0.9999999999999999; 2.5937424601]]%float.



(** ** Comprehensions and sums *)

Section Generators.

Context {num : Type} {NumOps : Number num}.

Lemma bind_ok {A B : Type} (m : result A) (k : A -> result B) (v : B) :
  bind m k = Ok v <-> exists x, m = Ok x /\ k x = Ok v.
Proof.
  destruct m as [x|e]; simpl; split.
  - intros Hk. exists x. split; [reflexivity | exact Hk].
  - intros [x' [Hx Hk]]. injection Hx as ->. exact Hk.
  - discriminate.
  - intros [x' [Hx _]]. discriminate.
Qed.

Lemma index_ok {A : Type} (xs : list A) (i : nat) (x : A) :
  index xs i = Ok x <-> nth_error xs i = Some x.
Proof.
  unfold index. destruct (nth_error xs i); split; congruence.
Qed.

Lemma index_lt {A : Type} (xs : list A) (i : nat) :
  i < List.length xs -> exists x, index xs i = Ok x.
Proof.
  intros Hi. unfold index.
  destruct (nth_error xs i) as [x|] eqn:E.
  - exists x. reflexivity.
  - apply nth_error_None in E. lia.
Qed.

Lemma comprehension_ext {A B : Type} (body body' : A -> result B) (ixs : list A) :
  (forall i, In i ixs -> body i = body' i) ->
  comprehension body ixs = comprehension body' ixs.
Proof.
  induction ixs as [|i rest IH]; intros Hext; simpl.
  - reflexivity.
  - rewrite (Hext i (or_introl eq_refl)).
    rewrite IH by (intros j Hj; apply Hext; right; exact Hj).
    reflexivity.
Qed.

Lemma comprehension_ok {A B : Type} (body : A -> result B) (ixs : list A)
    (xs : list B) :
  comprehension body ixs = Ok xs <-> Forall2 (fun i x => body i = Ok x) ixs xs.
Proof.
  revert xs. induction ixs as [|i rest IH]; intros xs; simpl.
  - split.
    + intros Heq. injection Heq as <-. constructor.
    + intros HF. inversion HF. reflexivity.
  - split.
    + intros Heq. apply bind_ok in Heq. destruct Heq as [x [Hx Heq]].
      apply bind_ok in Heq. destruct Heq as [xs' [Hxs Heq]].
      injection Heq as <-. constructor; [exact Hx | apply IH; exact Hxs].
    + intros HF. inversion HF as [|i' x rest' xs' Hx Hrest]; subst.
      rewrite Hx. simpl. apply IH in Hrest. rewrite Hrest. reflexivity.
Qed.


Lemma comprehension_length {A B : Type} (body : A -> result B) (ixs : list A)
    (xs : list B) :
  comprehension body ixs = Ok xs -> List.length xs = List.length ixs.
Proof.
  intros Heq. apply comprehension_ok in Heq.
  symmetry. eapply Forall2_length. exact Heq.
Qed.

Lemma comprehension_seq_nth {B : Type} (body : nat -> result B) (k s : nat)
    (xs : list B) :
  comprehension body (seq s k) = Ok xs <->
  List.length xs = k /\
  forall i, i < k -> exists x, nth_error xs i = Some x /\ body (s + i) = Ok x.
Proof.
  revert s xs. induction k as [|k IH]; intros s xs; simpl.
  - split.
    + intros Heq. injection Heq as <-. split; [reflexivity | intros i Hi; lia].
    + intros [Hlen _]. destruct xs; [reflexivity | discriminate].
  - split.
    + intros Heq. apply bind_ok in Heq. destruct Heq as [x [Hx Heq]].
      apply bind_ok in Heq. destruct Heq as [xs' [Hxs Heq]].
      injection Heq as <-. apply IH in Hxs. destruct Hxs as [Hlen Hnth].
      split; [simpl; lia|].
      intros [|i] Hi.
      * exists x. rewrite Nat.add_0_r. split; [reflexivity | exact Hx].
      * destruct (Hnth i ltac:(lia)) as [x' [Hx' Hb]].
        exists x'. split; [exact Hx'|].
        replace (s + S i) with (S s + i) by lia. exact Hb.
    + intros [Hlen Hnth]. destruct xs as [|x xs']; [discriminate|].
      destruct (Hnth 0 ltac:(lia)) as [x0 [Hx0 Hb0]].
      simpl in Hx0. injection Hx0 as <-. rewrite Nat.add_0_r in Hb0.
      rewrite Hb0. simpl.
      assert (Hrest : comprehension body (seq (S s) k) = Ok xs').
      { apply IH. split; [simpl in Hlen; lia|].
        intros i Hi. destruct (Hnth (S i) ltac:(lia)) as [x' [Hx' Hb]].
        exists x'. split; [exact Hx'|].
        replace (S s + i) with (s + S i) by lia. exact Hb. }
      rewrite Hrest. reflexivity.
Qed.

Lemma comprehension_range_nth {B : Type} (body : nat -> result B) (k : nat)
    (xs : list B) :
  comprehension body (range k) = Ok xs <->
  List.length xs = k /\
  forall i, i < k -> exists x, nth_error xs i = Some x /\ body i = Ok x.
Proof.
  unfold range. apply comprehension_seq_nth.
Qed.

Lemma sum_from_ok (acc : num) (items : list (result num)) (v : num) :
  sum_from acc items = Ok v <->
  exists xs, Forall2 (fun item x => item = Ok x) items xs /\
             v = fold_left add xs acc.
Proof.
  revert acc. induction items as [|item rest IH]; intros acc; simpl.
  - split.
    + intros Heq. injection Heq as <-. exists []. split; [constructor | reflexivity].
    + intros [xs [HF ->]]. inversion HF. reflexivity.
  - split.
    + intros Heq. apply bind_ok in Heq. destruct Heq as [x [-> Heq]].
      apply IH in Heq. destruct Heq as [xs [HF ->]].
      exists (x :: xs). split; [constructor; [reflexivity | exact HF] | reflexivity].
    + intros [xs [HF ->]].
      inversion HF as [|item' x rest' xs' Hx Hrest]; subst. simpl.
      apply IH. exists xs'. split; [exact Hrest | reflexivity].
Qed.


(** A sum over [range(k)] returns exactly when every item does; its value
    is the left fold of the items from the integer 0. *)
Lemma sum_range_ok (item : nat -> result num) (k : nat) (v : num) :
  sum (map item (range k)) = Ok v <->
  exists terms, List.length terms = k /\
    (forall r, r < k -> exists x, nth_error terms r = Some x /\ item r = Ok x) /\
    v = fold_left add terms (of_int 0).
Proof.
  unfold sum. rewrite sum_from_ok. split.
  - intros [xs [HF ->]]. exists xs.
    assert (Hc : comprehension item (range k) = Ok xs).
    { apply comprehension_ok. clear -HF. revert xs HF.
      induction (range k) as [|i rest IH]; intros xs HF; simpl in HF.
      - inversion HF. constructor.
      - inversion HF; subst. constructor; [assumption | apply IH; assumption]. }
    apply comprehension_range_nth in Hc. destruct Hc as [Hlen Hnth].
    split; [exact Hlen | split; [exact Hnth | reflexivity]].
  - intros [terms [Hlen [Hnth ->]]]. exists terms. split; [|reflexivity].
    assert (Hc : comprehension item (range k) = Ok terms)
      by (apply comprehension_range_nth; split; assumption).
    apply comprehension_ok in Hc. clear -Hc. revert terms Hc.
    induction (range k) as [|i rest IH]; intros terms Hc.
    + inversion Hc. constructor.
    + inversion Hc; subst. simpl. constructor; [assumption | apply IH; assumption].
Qed.


End Generators.

(** ** The stage recursion *)

Section Stages.

Context {num : Type} {NumOps : Number num}.

Implicit Types (self : @RK num) (f : @func num) (t : num) (y : list num).

(** The depth at which the recursion is started does not matter once it
    exceeds the stage index: the depth-0 answer is never reached. *)
Lemma kappa_rec_depth self f t y (d d' r : nat) :
  r < d -> r < d' ->
  kappa_rec d self f t y r = kappa_rec d' self f t y r.
Proof.
  revert d' r. induction d as [|d IH]; intros d' r Hd Hd'; [lia|].
  destruct d' as [|d']; [lia|]. simpl.
  assert (Hmap :
    map (fun s => ar <- index (a self) r ;; ars <- index ar s ;;
                  ks <- kappa_rec d self f t y s ;; Ok (mul ars ks))
        (range (r - 1)) =
    map (fun s => ar <- index (a self) r ;; ars <- index ar s ;;
                  ks <- kappa_rec d' self f t y s ;; Ok (mul ars ks))
        (range (r - 1))).
  { apply map_ext_in. intros s Hs. unfold range in Hs. apply in_seq in Hs.
    rewrite (IH d' s) by lia. reflexivity. }
  rewrite Hmap. reflexivity.
Qed.

(** The body of [kappa], with the recursive calls folded back. *)
Lemma kappa_eq self f t y (r : nat) :
  kappa self f t y r =
  (cr <- index (c self) r ;;
   termos_y <- comprehension (fun i =>
       yi <- index y i ;;
       acc <- sum (map (fun s =>
                ar <- index (a self) r ;;
                ars <- index ar s ;;
                ks <- kappa self f t y s ;;
                Ok (mul ars ks)) (range (r - 1))) ;;
       Ok (add yi (mul (h self) acc))) (range (n self)) ;;
   f (add t (mul (h self) cr)) termos_y).
Proof.
  unfold kappa at 1. simpl.
  assert (Hmap :
    map (fun s => ar <- index (a self) r ;; ars <- index ar s ;;
                  ks <- kappa_rec r self f t y s ;; Ok (mul ars ks))
        (range (r - 1)) =
    map (fun s => ar <- index (a self) r ;; ars <- index ar s ;;
                  ks <- kappa self f t y s ;; Ok (mul ars ks))
        (range (r - 1))).
  { apply map_ext_in. intros s Hs. unfold range in Hs. apply in_seq in Hs.
    unfold kappa.
    rewrite (kappa_rec_depth self f t y (d := r) (d' := S s)) by lia.
    reflexivity. }
  rewrite Hmap. reflexivity.
Qed.

(** Stages 0 and 1 both have an empty sum in the code. *)
Lemma kappa_unshifted self f t y (r : nat) :
  r <= 1 ->
  kappa self f t y r =
  (cr <- index (c self) r ;;
   termos_y <- comprehension (fun i =>
       yi <- index y i ;;
       Ok (add yi (mul (h self) (of_int 0)))) (range (n self)) ;;
   f (add t (mul (h self) cr)) termos_y).
Proof.
  intros Hr. rewrite kappa_eq.
  replace (r - 1) with 0 by lia. reflexivity.
Qed.

(** An exception of the derivative function is the exception of the stage. *)
Lemma kappa_raises self f t y (r : nat) (cr : num) (termos_y : list num)
    (e : exception) :
  index (c self) r = Ok cr ->
  comprehension (fun i =>
       yi <- index y i ;;
       acc <- sum (map (fun s =>
                ar <- index (a self) r ;;
                ars <- index ar s ;;
                ks <- kappa self f t y s ;;
                Ok (mul ars ks)) (range (r - 1))) ;;
       Ok (add yi (mul (h self) acc))) (range (n self)) = Ok termos_y ->
  f (add t (mul (h self) cr)) termos_y = Err e ->
  kappa self f t y r = Err e.
Proof.
  intros Hc Hterms Hf. rewrite kappa_eq, Hc. simpl.
  rewrite Hterms. simpl. exact Hf.
Qed.

(** ** One step *)

Lemma phi_weighted_sum self f t y (p : num) :
  phi self f t y = Ok p <->
  exists terms, List.length terms = R self /\
    (forall r, r < R self -> exists br kr,
        nth_error (b self) r = Some br /\
        kappa self f t y r = Ok kr /\
        nth_error terms r = Some (mul br kr)) /\
    p = fold_left add terms (of_int 0).
Proof.
  unfold phi. rewrite sum_range_ok. split.
  - intros [terms [Hlen [Hnth ->]]]. exists terms.
    split; [exact Hlen | split; [|reflexivity]].
    intros r Hr. destruct (Hnth r Hr) as [x [Hx Hitem]].
    apply bind_ok in Hitem. destruct Hitem as [br [Hbr Hitem]].
    apply bind_ok in Hitem. destruct Hitem as [kr [Hkr Hitem]].
    injection Hitem as <-. apply index_ok in Hbr.
    exists br, kr. split; [exact Hbr | split; [exact Hkr | exact Hx]].
  - intros [terms [Hlen [Hnth ->]]]. exists terms.
    split; [exact Hlen | split; [|reflexivity]].
    intros r Hr. destruct (Hnth r Hr) as [br [kr [Hbr [Hkr Hx]]]].
    exists (mul br kr). split; [exact Hx|].
    apply index_ok in Hbr. rewrite Hbr. simpl. rewrite Hkr. reflexivity.
Qed.


Lemma yk1_ok self (tk : num) (yk : list num) (tk' : num) (yk' : list num) :
  yk1 self tk yk = Ok (tk', yk') <->
  tk' = add tk (h self) /\
  List.length yk' = n self /\
  forall i, i < n self -> exists yi fi p,
      nth_error yk i = Some yi /\
      nth_error (f self) i = Some fi /\
      phi self fi tk yk = Ok p /\
      nth_error yk' i = Some (add yi (mul (h self) p)).
Proof.
  unfold yk1. rewrite bind_ok. split.
  - intros [ys [Hc Heq]]. injection Heq as <- <-.
    apply comprehension_range_nth in Hc. destruct Hc as [Hlen Hnth].
    split; [reflexivity | split; [exact Hlen|]].
    intros i Hi. destruct (Hnth i Hi) as [x [Hx Hbody]].
    apply bind_ok in Hbody. destruct Hbody as [yi [Hyi Hbody]].
    apply bind_ok in Hbody. destruct Hbody as [fi [Hfi Hbody]].
    apply bind_ok in Hbody. destruct Hbody as [p [Hp Hbody]].
    injection Hbody as <-. apply index_ok in Hyi. apply index_ok in Hfi.
    exists yi, fi, p. repeat split; assumption.
  - intros [-> [Hlen Hnth]]. exists yk'. split; [|reflexivity].
    apply comprehension_range_nth. split; [exact Hlen|].
    intros i Hi. destruct (Hnth i Hi) as [yi [fi [p [Hyi [Hfi [Hp Hx]]]]]].
    exists (add yi (mul (h self) p)). split; [exact Hx|].
    apply index_ok in Hyi. apply index_ok in Hfi.
    rewrite Hyi. simpl. rewrite Hfi. simpl. rewrite Hp. reflexivity.
Qed.

Lemma yk1_instant self (tk : num) (yk : list num) (tk' : num) (yk' : list num) :
  yk1 self tk yk = Ok (tk', yk') -> tk' = add tk (h self).
Proof.
  intros Hstep. apply yk1_ok in Hstep. tauto.
Qed.


End Stages.

(** ** The driving loop *)

Section Loop.

Context {num : Type} {NumOps : Number num}.

Implicit Types (self : @RK num) (tf tk : num) (yk : list num).

Lemma run_from_nonempty self tf tk yk (new : list (list num)) :
  run_from self tf tk yk new -> new <> [].
Proof.
  intros Hrun. destruct Hrun; discriminate.
Qed.

(** A normal return of the loop appends a run to the records it started
    with. *)
Lemma aplicar_loop_ok (fuel : nat) self tf tk yk
    (pontos traj : list (list num)) :
  aplicar_loop fuel self tf tk yk pontos = Some (Ok traj) ->
  exists new, traj = pontos ++ new /\ run_from self tf tk yk new.
Proof.
  revert tk yk pontos. induction fuel as [|fuel IH]; intros tk yk pontos; simpl.
  - discriminate.
  - destruct (yk1 self tk yk) as [[tk' yk']|e] eqn:Hstep; [|discriminate].
    destruct (ge (round tk' (qntdCasasArredondamento self)) tf) eqn:Hge.
    + intros Heq. injection Heq as <-. exists [tk' :: yk'].
      split; [reflexivity | apply run_stop; assumption].
    + intros Heq. apply IH in Heq. destruct Heq as [new [-> Hrun]].
      exists ((tk' :: yk') :: new). split.
      * rewrite <- app_assoc. reflexivity.
      * eapply run_cont; eassumption.
Qed.

(** Conversely a run is what the loop returns, given fuel for its steps. *)
Lemma run_from_aplicar_loop self tf tk yk (new : list (list num)) :
  run_from self tf tk yk new ->
  forall (fuel : nat) (pontos : list (list num)),
    List.length new <= fuel ->
    aplicar_loop fuel self tf tk yk pontos = Some (Ok (pontos ++ new)).
Proof.
  intros Hrun. induction Hrun as [tk yk tk' yk' Hstep Hge
                                 |tk yk tk' yk' rest Hstep Hge Hrun IH];
    intros fuel pontos Hfuel; simpl in Hfuel.
  - destruct fuel as [|fuel]; [lia|]. simpl. rewrite Hstep, Hge. reflexivity.
  - destruct fuel as [|fuel]; [lia|]. simpl. rewrite Hstep, Hge.
    rewrite IH by lia. rewrite <- app_assoc. reflexivity.
Qed.


(** An exception leaving the loop is the exception of a step. *)
Lemma aplicar_loop_err (fuel : nat) self tf (k : nat) tk yk
    (pontos : list (list num)) (e : exception) :
  loop_reaches self tf k tk yk ->
  aplicar_loop fuel self tf tk yk pontos = Some (Err e) ->
  exists k' tk' yk',
    loop_reaches self tf k' tk' yk' /\ yk1 self tk' yk' = Err e.
Proof.
  revert k tk yk pontos.
  induction fuel as [|fuel IH]; intros k tk yk pontos Hreach; simpl.
  - discriminate.
  - destruct (yk1 self tk yk) as [[tk' yk']|e1] eqn:Hstep.
    + destruct (ge (round tk' (qntdCasasArredondamento self)) tf) eqn:Hge;
        [discriminate|].
      apply IH with (k := S k). eapply reaches_next; eassumption.
    + intros Heq. injection Heq as <-. exists k, tk, yk. split; assumption.
Qed.

(** The instants of a run, led by the instant it started from, advance by
    [h] from each record to the next. *)
Lemma run_from_spacing self tf tk yk (new : list (list num)) :
  run_from self tf tk yk new ->
  forall (k : nat) (rec rec' : list num),
    nth_error ((tk :: yk) :: new) k = Some rec ->
    nth_error ((tk :: yk) :: new) (S k) = Some rec' ->
    exists t ys t' ys',
      rec = t :: ys /\ rec' = t' :: ys' /\ t' = add t (h self).
Proof.
  intros Hrun. induction Hrun as [tk yk tk' yk' Hstep Hge
                                 |tk yk tk' yk' rest Hstep Hge Hrun IH];
    intros k rec rec' Hk HSk.
  - destruct k as [|k]; simpl in Hk, HSk.
    + injection Hk as <-. injection HSk as <-.
      exists tk, yk, tk', yk'. repeat split. eapply yk1_instant; eassumption.
    + destruct k; discriminate.
  - destruct k as [|k].
    + simpl in Hk, HSk. injection Hk as <-. injection HSk as <-.
      exists tk, yk, tk', yk'. repeat split. eapply yk1_instant; eassumption.
    + apply (IH k rec rec'); assumption.
Qed.

(** A run ends on the first record whose rounded instant reaches [tf]. *)
Lemma run_from_last self tf tk yk (new : list (list num)) :
  run_from self tf tk yk new ->
  exists earlier t_last y_last,
    new = earlier ++ [t_last :: y_last] /\
    ge (round t_last (qntdCasasArredondamento self)) tf = true /\
    forall rec, In rec earlier ->
      exists t ys, rec = t :: ys /\
        ge (round t (qntdCasasArredondamento self)) tf = false.
Proof.
  intros Hrun. induction Hrun as [tk yk tk' yk' Hstep Hge
                                 |tk yk tk' yk' rest Hstep Hge Hrun IH].
  - exists [], tk', yk'. split; [reflexivity|].
    split; [exact Hge | intros rec []].
  - destruct IH as [earlier [t_last [y_last [-> [Hlast Hearlier]]]]].
    exists ((tk' :: yk') :: earlier), t_last, y_last.
    split; [reflexivity | split; [exact Hlast|]].
    intros rec [<- | Hin].
    + exists tk', yk'. split; [reflexivity | exact Hge].
    + apply Hearlier. exact Hin.
Qed.


Lemma aplicar_length self (fuel : nat) tf (traj : list (list num)) :
  aplicar fuel self tf = Some (Ok traj) -> 2 <= List.length traj.
Proof.
  unfold aplicar. intros Hrun.
  apply aplicar_loop_ok in Hrun. destruct Hrun as [new [-> Hnew]].
  apply run_from_nonempty in Hnew.
  destruct new as [|rec rest]; [contradiction|]. simpl. lia.
Qed.

End Loop.

(** ** Properties of every arithmetic *)

Section Engine.

Context {num : Type} {NumOps : Number num}.

Implicit Types (self : @RK num) (tf tk : num) (yk : list num).

(** C2 (as amended).  The constructor validates nothing: whatever the stage
    count, the matrix and the weights, it returns an integrator that stores
    them as given, with [c] the row sums of [a] and ten rounding places. *)
Theorem init_never_fails (f' : list func) (t0' : num) (y0' : list num)
    (h' : num) (R' : nat) (a' : list (list num)) (b' : list num) :
  exists rk, __init__ f' t0' y0' h' R' a' b' = Ok rk /\
    R rk = R' /\ a rk = a' /\ b rk = b' /\ c rk = map row_sum a' /\
    f rk = f' /\ n rk = List.length f' /\
    t0 rk = t0' /\ y0 rk = y0' /\ h rk = h' /\
    qntdCasasArredondamento rk = 10%Z.
Proof.
  eexists. split; [reflexivity|]. simpl. repeat split.
Qed.

(** C5.  One step returns exactly when every component can be computed, and
    then the next instant is [tk + h] and component [i] of the next state is
    [yk[i] + h * phi_i], where [phi_i] sums, from the left and from the
    integer 0, the terms [b[r] * kappa(f[i], tk, yk, r)] for [r] in
    [range(R)]: every stage and every component reads the instant and the
    state the step was given. *)
Theorem yk1_weighted_stages self tk yk (tk' : num) (yk' : list num) :
  yk1 self tk yk = Ok (tk', yk') <->
  tk' = add tk (h self) /\
  List.length yk' = n self /\
  forall i, i < n self -> exists yi fi terms,
      nth_error yk i = Some yi /\
      nth_error (f self) i = Some fi /\
      List.length terms = R self /\
      (forall r, r < R self -> exists br kr,
          nth_error (b self) r = Some br /\
          kappa self fi tk yk r = Ok kr /\
          nth_error terms r = Some (mul br kr)) /\
      nth_error yk' i =
        Some (add yi (mul (h self) (fold_left add terms (of_int 0)))).
Proof.
  rewrite yk1_ok. split.
  - intros [Ht [Hlen Hnth]]. split; [exact Ht | split; [exact Hlen|]].
    intros i Hi. destruct (Hnth i Hi) as [yi [fi [p [Hyi [Hfi [Hp Hx]]]]]].
    apply phi_weighted_sum in Hp. destruct Hp as [terms [Hterms [Hstage ->]]].
    exists yi, fi, terms. repeat split; assumption.
  - intros [Ht [Hlen Hnth]]. split; [exact Ht | split; [exact Hlen|]].
    intros i Hi. destruct (Hnth i Hi) as [yi [fi [terms [Hyi [Hfi [Hterms [Hstage Hx]]]]]]].
    exists yi, fi, (fold_left add terms (of_int 0)).
    repeat split; try assumption.
    apply phi_weighted_sum. exists terms. repeat split; assumption.
Qed.







(** C8.  The first record of a returned trajectory is the initial instant
    followed by the initial state, as they were given to the constructor. *)
Theorem aplicar_first_record (f : list func) (t0 : num) (y0 : list num)
    (h : num) (R : nat) (a : list (list num)) (b : list num)
    (fuel : nat) tf (traj : list (list num)) :
  run fuel (__init__ f t0 y0 h R a b) tf = Some (Ok traj) ->
  nth_error traj 0 = Some (t0 :: y0).
Proof.
  simpl. unfold aplicar. intros Hrun.
  apply aplicar_loop_ok in Hrun. destruct Hrun as [new [-> _]].
  reflexivity.
Qed.

(** C10.  A returned trajectory has at least two records, whatever [tf]:
    the initial one and the record of the step taken from it before the
    first test. *)
Theorem aplicar_at_least_two_records self (fuel : nat) tf
    (traj : list (list num)) :
  aplicar fuel self tf = Some (Ok traj) ->
  2 <= List.length traj /\
  exists t1 y1 rest,
    yk1 self (t0 self) (y0 self) = Ok (t1, y1) /\
    traj = (t0 self :: y0 self) :: (t1 :: y1) :: rest.
Proof.
  intros Hrun. split; [eapply aplicar_length; exact Hrun|].
  unfold aplicar in Hrun. apply aplicar_loop_ok in Hrun.
  destruct Hrun as [new [-> Hnew]].
  destruct Hnew as [tk yk t1 y1 Hstep _ | tk yk t1 y1 rest Hstep _ _].
  - exists t1, y1, []. split; [exact Hstep | reflexivity].
  - exists t1, y1, rest. split; [exact Hstep | reflexivity].
Qed.

End Engine.

(** ** Exact rational arithmetic *)

Section Fractions.

Implicit Types (self : @RK Q) (tf tk : Q) (yk : list Q).

Lemma round_half_even_bound (num den : Z) :
  (0 < den)%Z ->
  (2 * Z.abs (round_half_even num den * den - num) <= den)%Z.
Proof.
  intros Hden. unfold round_half_even.
  pose proof (Z.div_mod num den ltac:(lia)) as Hdm.
  pose proof (Z.mod_pos_bound num den Hden) as Hmod.
  destruct (Z.ltb_spec (num mod den * 2) den) as [Hlo|Hlo].
  - nia.
  - destruct (Z.ltb_spec den (num mod den * 2)) as [Hhi|Hhi].
    + nia.
    + destruct (Z.even (num / den)); nia.
Qed.

Lemma nearest_integer_bound (q : Q) (m : Z) :
  (2 * Z.abs (m * Zpos (Qden q) - Qnum q) <= Zpos (Qden q))%Z ->
  (inject_Z m - (1 # 2) <= q /\ q <= inject_Z m + (1 # 2))%Q.
Proof.
  intros Hm. destruct q as [N D]. cbn [Qnum Qden] in Hm.
  unfold Qle, Qminus, Qplus, Qopp, inject_Z. cbn [Qnum Qden].
  rewrite !Pos.mul_1_l. split; lia.
Qed.

Lemma Fraction_round_10 (x : Q) :
  (x - half_ulp <= Fraction_round x 10 /\ Fraction_round x 10 <= x + half_ulp)%Q.
Proof.
  unfold Fraction_round.
  change (0 <? 10)%Z with true. cbv iota.
  set (shift := (10 ^ Z.abs 10)%Z).
  set (xs := (x * inject_Z shift)%Q).
  set (m := round_half_even (Qnum xs) (Z.pos (Qden xs))).
  assert (Hm : (2 * Z.abs (m * Zpos (Qden xs) - Qnum xs) <= Zpos (Qden xs))%Z)
    by (apply round_half_even_bound; reflexivity).
  apply nearest_integer_bound in Hm.
  rewrite Qred_correct.
  assert (Hmq : (m # Z.to_pos shift == inject_Z m * (1 # 10000000000))%Q).
  { unfold Qeq, Qmult, inject_Z. simpl. lia. }
  rewrite Hmq.
  assert (Hx : (xs == x * 10000000000)%Q) by reflexivity.
  unfold half_ulp. rewrite Hx in Hm. lra.
Qed.

Lemma Fraction_add_eq (x y : Q) : (add x y == x + y)%Q.
Proof.
  apply Qred_correct.
Qed.

Lemma Fraction_ge_true (x y : Q) : ge x y = true <-> (y <= x)%Q.
Proof.
  apply Qle_bool_iff.
Qed.

Lemma Fraction_ge_false (x y : Q) : ge x y = false <-> (x < y)%Q.
Proof.
  simpl. split.
  - intros Hge. apply Qnot_le_lt. intros Hle.
    apply Qle_bool_iff in Hle. congruence.
  - intros Hlt. destruct (Qle_bool y x) eqn:Hge; [|reflexivity].
    apply Qle_bool_iff in Hge. apply Qlt_not_le in Hlt. contradiction.
Qed.

Lemma yk1_instant_eq self tk yk (tk' : Q) (yk' : list Q) :
  yk1 self tk yk = Ok (tk', yk') -> (tk' == tk + h self)%Q.
Proof.
  intros Hstep. apply yk1_instant in Hstep. subst tk'. apply Fraction_add_eq.
Qed.

(** With a positive step the loop ends, by a return or by an exception,
    once the fuel covers the distance to [tf]. *)
Lemma aplicar_loop_terminates self tf :
  qntdCasasArredondamento self = 10%Z -> (0 < h self)%Q ->
  forall (fuel : nat) tk yk (pontos : list (list Q)),
    (tf + half_ulp <= tk + inject_Z (Z.of_nat (S fuel)) * h self)%Q ->
    exists res, aplicar_loop (S fuel) self tf tk yk pontos = Some res.
Proof.
  intros Hplaces Hh. induction fuel as [|fuel IH]; intros tk yk pontos Hfar.
  - cbn [aplicar_loop].
    destruct (yk1 self tk yk) as [[tk' yk']|e] eqn:Hstep;
      [|eexists; reflexivity].
    rewrite Hplaces.
    destruct (ge (round tk' 10) tf) eqn:Hge; [eexists; reflexivity|].
    exfalso. apply Fraction_ge_false in Hge. apply yk1_instant_eq in Hstep.
    destruct (Fraction_round_10 tk') as [Hlow _].
    change (round tk' 10) with (Fraction_round tk' 10) in Hge.
    change (inject_Z (Z.of_nat 1)) with 1%Q in Hfar.
    lra.
  - remember (S fuel) as fuel1 eqn:Hfuel1.
    cbn [aplicar_loop].
    destruct (yk1 self tk yk) as [[tk' yk']|e] eqn:Hstep;
      [|eexists; reflexivity].
    rewrite Hplaces.
    destruct (ge (round tk' 10) tf) eqn:Hge; [eexists; reflexivity|].
    subst fuel1. apply IH. apply yk1_instant_eq in Hstep.
    replace (Z.of_nat (S (S fuel))) with (Z.of_nat (S fuel) + 1)%Z in Hfar by lia.
    rewrite inject_Z_plus in Hfar. change (inject_Z 1) with 1%Q in Hfar. lra.
Qed.

Lemma aplicar_terminates self tf :
  qntdCasasArredondamento self = 10%Z -> (0 < h self)%Q ->
  exists fuel res, aplicar fuel self tf = Some res.
Proof.
  intros Hplaces Hh.
  set (q := ((tf + half_ulp - t0 self) / h self)%Q).
  set (steps := Z.to_nat (Qceiling q)).
  exists (S steps). unfold aplicar.
  apply aplicar_loop_terminates; [exact Hplaces | exact Hh |].
  assert (Hq : (q <= inject_Z (Z.of_nat (S steps)))%Q).
  { apply Qle_trans with (inject_Z (Qceiling q)); [apply Qle_ceiling|].
    rewrite <- Zle_Qle. unfold steps. lia. }
  assert (Hqh : (q * h self == tf + half_ulp - t0 self)%Q).
  { unfold q. field. intros H0. rewrite H0 in Hh. apply (Qlt_irrefl 0). exact Hh. }
  assert (Hmul : (q * h self <= inject_Z (Z.of_nat (S steps)) * h self)%Q).
  { apply Qmult_le_compat_r; [exact Hq | apply Qlt_le_weak; exact Hh]. }
  rewrite Hqh in Hmul. lra.
Qed.

(** A run that starts no later than half a unit of the tenth place after
    [tf] ends on the first record whose rounded instant reaches [tf], and
    that record lies within the rounding margin of [tf, tf + h). *)
Lemma run_from_stops self tf tk yk (new : list (list Q)) :
  qntdCasasArredondamento self = 10%Z ->
  run_from self tf tk yk new ->
  exists earlier t_last y_last,
    new = earlier ++ [t_last :: y_last] /\
    (tf <= round t_last 10)%Q /\
    (forall rec, In rec earlier ->
       exists t ys, rec = t :: ys /\ (round t 10 < tf)%Q) /\
    (tf - half_ulp <= t_last)%Q /\
    ((tk < tf + half_ulp)%Q -> (t_last < tf + h self + half_ulp)%Q).
Proof.
  intros Hplaces Hrun.
  induction Hrun as [tk yk tk' yk' Hstep Hge
                    |tk yk tk' yk' rest Hstep Hge Hrun IH].
  - rewrite Hplaces in Hge. apply Fraction_ge_true in Hge.
    apply yk1_instant_eq in Hstep.
    destruct (Fraction_round_10 tk') as [_ Hup].
    change (round tk' 10) with (Fraction_round tk' 10) in Hge.
    exists [], tk', yk'. split; [reflexivity|].
    split; [exact Hge|]. split; [intros rec []|].
    split; [lra | intros Hstart; lra].
  - rewrite Hplaces in Hge. apply Fraction_ge_false in Hge.
    apply yk1_instant_eq in Hstep.
    destruct (Fraction_round_10 tk') as [Hlow _].
    change (round tk' 10) with (Fraction_round tk' 10) in Hge.
    destruct IH as [earlier [t_last [y_last [-> [Hlast [Hearlier [Hlo Hhi]]]]]]].
    exists ((tk' :: yk') :: earlier), t_last, y_last.
    split; [reflexivity|]. split; [exact Hlast|]. split.
    + intros rec [<- | Hin].
      * exists tk', yk'. split; [reflexivity | exact Hge].
      * apply Hearlier. exact Hin.
    + split; [exact Hlo | intros _; apply Hhi; lra].
Qed.

(** With a step that is not positive, no run starts further than the
    rounding margin below [tf]. *)
Lemma run_from_needs_progress self tf tk yk (new : list (list Q)) :
  qntdCasasArredondamento self = 10%Z -> (h self <= 0)%Q ->
  run_from self tf tk yk new -> (tf <= tk + half_ulp)%Q.
Proof.
  intros Hplaces Hh Hrun.
  induction Hrun as [tk yk tk' yk' Hstep Hge
                    |tk yk tk' yk' rest Hstep Hge Hrun IH].
  - rewrite Hplaces in Hge. apply Fraction_ge_true in Hge.
    apply yk1_instant_eq in Hstep.
    destruct (Fraction_round_10 tk') as [_ Hup].
    change (round tk' 10) with (Fraction_round tk' 10) in Hge. lra.
  - apply yk1_instant_eq in Hstep. lra.
Qed.

(** On exact rationals: an exception of [aplicar] is the exception of a
    step; with [h > 0] and [tf <= t0] the call ends; with [h <= 0] and [tf]
    more than half a unit of the tenth place above [t0] it returns no
    trajectory. *)
Lemma aplicar_validates_nothing_exact (f : list func) (t0 : Q) (y0 : list Q)
    (h : Q) (R : nat) (a : list (list Q)) (b : list Q) (tf : Q) :
  (forall fuel e,
     run fuel (__init__ f t0 y0 h R a b) tf = Some (Err e) ->
     exists self k tk yk,
       __init__ f t0 y0 h R a b = Ok self /\
       loop_reaches self tf k tk yk /\ yk1 self tk yk = Err e) /\
  ((0 < h)%Q -> (tf <= t0)%Q ->
   exists fuel res,
     run fuel (__init__ f t0 y0 h R a b) tf = Some res /\
     forall traj, res = Ok traj -> 2 <= List.length traj) /\
  ((h <= 0)%Q -> (t0 + half_ulp < tf)%Q ->
   forall fuel traj,
     run fuel (__init__ f t0 y0 h R a b) tf <> Some (Ok traj)).
Proof.
  cbn [run __init__]. split; [|split].
  - intros fuel e Hrun. unfold aplicar in Hrun.
    eapply aplicar_loop_err in Hrun; [|apply reaches_start].
    destruct Hrun as [k [tk [yk [Hreach Hstep]]]].
    eexists. exists k, tk, yk. split; [reflexivity | split; assumption].
  - intros Hh _.
    destruct (@aplicar_terminates
                (Build_RK R (List.length f) f t0 y0 h a b (map row_sum a) 10)
                tf eq_refl Hh) as [fuel [res Hres]].
    exists fuel, res. split; [exact Hres|].
    intros traj ->. eapply aplicar_length. exact Hres.
  - intros Hh Hfar fuel traj Hrun. unfold aplicar in Hrun.
    apply aplicar_loop_ok in Hrun. destruct Hrun as [new [_ Hrun]].
    apply run_from_needs_progress in Hrun; [|reflexivity|exact Hh].
    simpl in Hrun. lra.
Qed.

(** On exact rationals, with [h > 0] and [tf > t0]: the call ends, and a
    trajectory it returns ends on the first appended record whose rounded
    instant reaches [tf], within the rounding margin of [tf, tf + h). *)
Lemma aplicar_stops_at_rounded_tf_exact (f : list func) (t0 : Q) (y0 : list Q)
    (h : Q) (R : nat) (a : list (list Q)) (b : list Q) (tf : Q) :
  (0 < h)%Q -> (t0 < tf)%Q ->
  (exists fuel res, run fuel (__init__ f t0 y0 h R a b) tf = Some res) /\
  forall fuel traj,
    run fuel (__init__ f t0 y0 h R a b) tf = Some (Ok traj) ->
    exists earlier t_last y_last,
      traj = (t0 :: y0) :: earlier ++ [t_last :: y_last] /\
      (tf <= round t_last 10)%Q /\
      (forall rec, In rec earlier ->
         exists t ys, rec = t :: ys /\ (round t 10 < tf)%Q) /\
      (tf - half_ulp <= t_last)%Q /\
      (t_last < tf + h + half_ulp)%Q.
Proof.
  intros Hh Htf. cbn [run __init__]. split.
  - apply aplicar_terminates; [reflexivity | exact Hh].
  - intros fuel traj Hrun. unfold aplicar in Hrun.
    apply aplicar_loop_ok in Hrun. destruct Hrun as [new [-> Hrun]].
    apply run_from_stops in Hrun; [|reflexivity].
    destruct Hrun as [earlier [t_last [y_last [-> [Hlast [Hearlier [Hlo Hhi]]]]]]].
    exists earlier, t_last, y_last. simpl in Hhi |- *.
    split; [reflexivity|]. split; [exact Hlast|]. split; [exact Hearlier|].
    split; [exact Hlo|]. apply Hhi. unfold half_ulp. lra.
Qed.

(** On exact rationals the instants of consecutive records differ by [h]
    exactly, and increase when [h > 0]. *)
Lemma aplicar_instants_spaced_by_h_exact (f : list func) (t0 : Q) (y0 : list Q)
    (h : Q) (R : nat) (a : list (list Q)) (b : list Q) (fuel : nat) (tf : Q)
    (traj : list (list Q)) (k : nat) (rec rec' : list Q) :
  run fuel (__init__ f t0 y0 h R a b) tf = Some (Ok traj) ->
  nth_error traj k = Some rec ->
  nth_error traj (S k) = Some rec' ->
  exists t ys t' ys',
    rec = t :: ys /\ rec' = t' :: ys' /\
    (t' - t == h)%Q /\ ((0 < h)%Q -> (t < t')%Q).
Proof.
  cbn [run __init__]. unfold aplicar. intros Hrun Hk HSk.
  apply aplicar_loop_ok in Hrun. destruct Hrun as [new [-> Hrun]].
  destruct (run_from_spacing Hrun k Hk HSk)
    as [t [ys [t' [ys' [-> [-> Ht']]]]]].
  exists t, ys, t', ys'. split; [reflexivity | split; [reflexivity|]].
  assert (Heq : (t' == t + h)%Q) by (subst t'; apply Fraction_add_eq).
  split; [lra | intros Hh; lra].
Qed.

End Fractions.

(** ** The claims that depend on the arithmetic *)

(** C3 (as amended).  [aplicar] validates neither [h] nor [tf].  In any
    arithmetic an exception it raises is the exception of one of its steps,
    and a trajectory it returns has at least two records.  On exact
    rationals, with [h > 0] and [tf <= t0] the call ends; with [h <= 0] and
    [tf] more than half a unit of the tenth decimal place above [t0] it
    returns no trajectory, whatever the fuel. *)
Theorem aplicar_validates_nothing :
  (forall (num : Type) (NumOps : Number num) (f : list func) (t0 : num)
          (y0 : list num) (h : num) (R : nat) (a : list (list num))
          (b : list num) (tf : num),
     (forall fuel e,
        run fuel (__init__ f t0 y0 h R a b) tf = Some (Err e) ->
        exists self k tk yk,
          __init__ f t0 y0 h R a b = Ok self /\
          loop_reaches self tf k tk yk /\ yk1 self tk yk = Err e) /\
     (forall fuel traj,
        run fuel (__init__ f t0 y0 h R a b) tf = Some (Ok traj) ->
        2 <= List.length traj)) /\
  (forall (f : list func) (t0 : Q) (y0 : list Q) (h : Q) (R : nat)
          (a : list (list Q)) (b : list Q) (tf : Q),
     ((0 < h)%Q -> (tf <= t0)%Q ->
      exists fuel res, run fuel (__init__ f t0 y0 h R a b) tf = Some res) /\
     ((h <= 0)%Q -> (t0 + half_ulp < tf)%Q ->
      forall fuel traj,
        run fuel (__init__ f t0 y0 h R a b) tf <> Some (Ok traj))).
Proof.
  split.
  - intros num NumOps f t0 y0 h R a b tf. cbn [run __init__]. split.
    + intros fuel e Hrun. unfold aplicar in Hrun.
      eapply aplicar_loop_err in Hrun; [|apply reaches_start].
      destruct Hrun as [k [tk [yk [Hreach Hstep]]]].
      eexists. exists k, tk, yk. split; [reflexivity | split; assumption].
    + intros fuel traj Hrun. eapply aplicar_length. exact Hrun.
  - intros f t0 y0 h R a b tf.
    destruct (aplicar_validates_nothing_exact f t0 y0 h R a b tf)
      as [_ [Hends Hnever]].
    split; [|exact Hnever].
    intros Hh Htf. destruct (Hends Hh Htf) as [fuel [res [Hres _]]].
    exists fuel, res. exact Hres.
Qed.

(** C4 (as amended).  In any arithmetic a trajectory that is returned ends
    on the first appended record whose instant, rounded to ten places, is
    at least [tf]: the test fails on every appended record before it.  On
    exact rationals, with [h > 0] and [tf > t0] the call ends, and the
    final instant is at least [tf] less half a unit of the tenth place and
    below [tf + h] plus half a unit of the tenth place. *)
Theorem aplicar_stops_at_rounded_tf :
  (forall (num : Type) (NumOps : Number num) (f : list func) (t0 : num)
          (y0 : list num) (h : num) (R : nat) (a : list (list num))
          (b : list num) (tf : num) (fuel : nat) (traj : list (list num)),
     run fuel (__init__ f t0 y0 h R a b) tf = Some (Ok traj) ->
     exists earlier t_last y_last,
       traj = (t0 :: y0) :: earlier ++ [t_last :: y_last] /\
       ge (round t_last 10) tf = true /\
       forall rec, In rec earlier ->
         exists t ys, rec = t :: ys /\ ge (round t 10) tf = false) /\
  (forall (f : list func) (t0 : Q) (y0 : list Q) (h : Q) (R : nat)
          (a : list (list Q)) (b : list Q) (tf : Q),
     (0 < h)%Q -> (t0 < tf)%Q ->
     (exists fuel res, run fuel (__init__ f t0 y0 h R a b) tf = Some res) /\
     forall fuel traj,
       run fuel (__init__ f t0 y0 h R a b) tf = Some (Ok traj) ->
       exists earlier t_last y_last,
         traj = (t0 :: y0) :: earlier ++ [t_last :: y_last] /\
         (tf <= round t_last 10)%Q /\
         (forall rec, In rec earlier ->
            exists t ys, rec = t :: ys /\ (round t 10 < tf)%Q) /\
         (tf - half_ulp <= t_last)%Q /\
         (t_last < tf + h + half_ulp)%Q).
Proof.
  split.
  - intros num NumOps f t0 y0 h R a b tf fuel traj.
    cbn [run __init__]. unfold aplicar. intros Hrun.
    apply aplicar_loop_ok in Hrun. destruct Hrun as [new [-> Hrun]].
    apply run_from_last in Hrun.
    destruct Hrun as [earlier [t_last [y_last [-> [Hlast Hearlier]]]]].
    exists earlier, t_last, y_last.
    split; [reflexivity | split; [exact Hlast | exact Hearlier]].
  - intros f t0 y0 h R a b tf. apply aplicar_stops_at_rounded_tf_exact.
Qed.

(** C9 (as amended).  In a returned trajectory the instant of every record
    but the first is the instant of the record before it plus [h], as the
    arithmetic at hand adds them.  On exact rationals the difference of the
    two instants is [h] exactly, and with [h > 0] the instants increase. *)
Theorem aplicar_instants_spaced_by_h :
  (forall (num : Type) (NumOps : Number num) (f : list func) (t0 : num)
          (y0 : list num) (h : num) (R : nat) (a : list (list num))
          (b : list num) (fuel : nat) (tf : num) (traj : list (list num))
          (k : nat) (rec rec' : list num),
     run fuel (__init__ f t0 y0 h R a b) tf = Some (Ok traj) ->
     nth_error traj k = Some rec ->
     nth_error traj (S k) = Some rec' ->
     exists t ys t' ys',
       rec = t :: ys /\ rec' = t' :: ys' /\ t' = add t h) /\
  (forall (f : list func) (t0 : Q) (y0 : list Q) (h : Q) (R : nat)
          (a : list (list Q)) (b : list Q) (fuel : nat) (tf : Q)
          (traj : list (list Q)) (k : nat) (rec rec' : list Q),
     run fuel (__init__ f t0 y0 h R a b) tf = Some (Ok traj) ->
     nth_error traj k = Some rec ->
     nth_error traj (S k) = Some rec' ->
     exists t ys t' ys',
       rec = t :: ys /\ rec' = t' :: ys' /\
       (t' - t == h)%Q /\ ((0 < h)%Q -> (t < t')%Q)).
Proof.
  split.
  - intros num NumOps f t0 y0 h R a b fuel tf traj k rec rec'.
    cbn [run __init__]. unfold aplicar. intros Hrun Hk HSk.
    apply aplicar_loop_ok in Hrun. destruct Hrun as [new [-> Hrun]].
    destruct (run_from_spacing Hrun k Hk HSk)
      as [t [ys [t' [ys' [-> [-> Ht']]]]]].
    exists t, ys, t', ys'. repeat split. exact Ht'.
  - intros f t0 y0 h R a b fuel tf traj k rec rec'.
    apply aplicar_instants_spaced_by_h_exact.
Qed.

(** ** The example systems *)

(** C1.  On the growth system the code evaluates stage 1 on the unshifted
    state and returns 1, where the stage of the specification, which adds
    [h * a[1][0] * stage 0] to the state, is 16/15: [range(r-1)] leaves out
    stage [r-1]. *)
Theorem kappa_leaves_out_previous_stage :
  (rk <- rk_growth ;; kappa rk growth 0%Q [1%Q] 1) = Ok 1%Q /\
  (rk <- rk_growth ;; stage_spec rk growth 0%Q [1%Q] 1) = Ok (16 # 15)%Q.
Proof.
  split; vm_compute; reflexivity.
Qed.

(** The constructor accepts a tableau with too few weights and entries on
    and above the diagonal; the run then fails at its first step. *)
Lemma malformed_tableau_accepted :
  exists rk, rk_malformed = Ok rk /\
    List.length (b rk) <> R rk /\
    index (a rk) 0 = Ok [1; 1]%Z /\
    run 1 rk_malformed 1%Z = Some (Err IndexError).
Proof.
  eexists. split; [reflexivity|]. split; [discriminate|].
  split; reflexivity.
Qed.

(** With [tf = t0] the call returns a trajectory. *)
Lemma aplicar_accepts_tf_at_t0 :
  (0 <= 0)%Q /\
  run 1 rk_growth 0%Q = Some (Ok [[0; 1]; [1 # 10; 11 # 10]]%Q).
Proof.
  split; [apply Qle_refl | vm_compute; reflexivity].
Qed.

(** With [h > 0] and [tf > t0] a run can end on an instant below [tf]. *)
Lemma final_instant_before_tf :
  (0 < 99999999999 # 100000000000)%Q /\ (0 < 1)%Q /\
  run 1 rk_short_step 1%Q =
    Some (Ok [[0; 1];
              [99999999999 # 100000000000; 199999999999 # 100000000000]]%Q) /\
  (99999999999 # 100000000000 < 1)%Q.
Proof.
  repeat split; vm_compute; reflexivity.
Qed.

(** On exact rationals, for [y' = y], [y(0) = 1], [h = 1/10] and [tf = 1]:
    eleven records at the instants 0, 1/10, ..., 1, and the final state
    (11/10)^10 = 2.5937424601. *)
Lemma growth_scenario_fractions :
  (forall fuel, 10 <= fuel ->
     run fuel rk_growth 1%Q = Some (Ok growth_trajectory)) /\
  List.length growth_trajectory = 11 /\
  map (@instant Q) growth_trajectory =
    map (fun k => Some (Qred (k # 10))) [0; 1; 2; 3; 4; 5; 6; 7; 8; 9; 10]%Z /\
  exists y_final,
    last growth_trajectory [] = [1%Q; y_final] /\
    forall e, (271828 # 100000 <= e)%Q -> (e <= 271829 # 100000)%Q ->
      (Qabs (y_final - e) <= (5 # 100) * e)%Q.
Proof.
  split; [|split; [reflexivity | split; [reflexivity|]]].
  - intros fuel Hfuel.
    assert (Hrun : run 10 rk_growth 1%Q = Some (Ok growth_trajectory))
      by (vm_compute; reflexivity).
    cbn [run rk_growth __init__] in Hrun |- *. unfold aplicar in Hrun |- *.
    apply aplicar_loop_ok in Hrun. destruct Hrun as [new [Hnew Hrun]].
    cbn [t0 y0] in Hnew, Hrun |- *. unfold growth_trajectory in Hnew.
    injection Hnew as Hnew. subst new.
    apply (run_from_aplicar_loop Hrun (fuel := fuel) [[0; 1]%Q]).
    simpl. exact Hfuel.
  - eexists. split; [reflexivity|].
    intros e Hlo Hhi. apply Qabs_Qle_condition. split; lra.
Qed.

(** *** The scenario on floats *)



(** On floats the instants of two consecutive records need not differ by
    [h]: from 0.2 to 0.30000000000000004 the difference is
    0.10000000000000003, as a float and as an exact number. *)
Lemma float_instants_not_spaced_by_h :
  run 10 rk_growth_float 1.0%float = Some (Ok growth_trajectory_float) /\
  (exists y, nth_error growth_trajectory_float 2 = Some [0.2%float; y]) /\
  (exists y, nth_error growth_trajectory_float 3
             = Some [0.30000000000000004%float; y]) /\
  PrimFloat.sub 0.30000000000000004 0.2 = 0.10000000000000003%float /\
  PrimFloat.sub 0.30000000000000004 0.2 <> 0.1%float /\
  ~ (float_value 0.30000000000000004 - float_value 0.2
     == float_value 0.1)%Q.
Proof.
  split; [vm_compute; reflexivity|].
  split; [eexists; reflexivity|]. split; [eexists; reflexivity|].
  split; [vm_compute; reflexivity|].
  split; [vm_compute; discriminate|].
  vm_compute. discriminate.
Qed.

(** ** The theorems at work on the examples *)

(** The first step of the growth system, read through the step theorem. *)
Lemma yk1_weighted_stages_witness :
  exists self, rk_growth = Ok self /\
    yk1 self 0%Q [1%Q] = Ok ((1 # 10)%Q, [(11 # 10)%Q]) /\
    ((1 # 10)%Q = add 0%Q (h self) /\
     List.length [(11 # 10)%Q] = n self /\
     forall i, i < n self -> exists yi fi terms,
         nth_error [1%Q] i = Some yi /\
         nth_error (f self) i = Some fi /\
         List.length terms = R self /\
         (forall r, r < R self -> exists br kr,
             nth_error (b self) r = Some br /\
             kappa self fi 0%Q [1%Q] r = Ok kr /\
             nth_error terms r = Some (mul br kr)) /\
         nth_error [(11 # 10)%Q] i =
           Some (add yi (mul (h self) (fold_left add terms (of_int 0))))).
Proof.
  eexists. split; [reflexivity|].
  split; [vm_compute; reflexivity|].
  apply yk1_weighted_stages. vm_compute. reflexivity.
Defined.


Lemma aplicar_first_record_witness :
  run 10 rk_growth 1%Q = Some (Ok growth_trajectory) /\
  nth_error growth_trajectory 0 = Some [0; 1]%Q.
Proof.
  split; [vm_compute; reflexivity|].
  apply aplicar_first_record
    with (f := [growth]) (h := (1 # 10)%Q) (R := 2) (a := a_rk2) (b := b_rk2)
         (fuel := 10) (tf := 1%Q).
  vm_compute. reflexivity.
Defined.

(** The call with [tf = t0] returns two records. *)
Lemma aplicar_at_least_two_records_witness :
  exists self, rk_growth = Ok self /\
    aplicar 1 self 0%Q = Some (Ok [[0; 1]; [1 # 10; 11 # 10]]%Q) /\
    2 <= List.length [[0; 1]; [1 # 10; 11 # 10]]%Q /\
    exists t1 y1 rest,
      yk1 self (t0 self) (y0 self) = Ok (t1, y1) /\
      [[0; 1]; [1 # 10; 11 # 10]]%Q = (t0 self :: y0 self) :: (t1 :: y1) :: rest.
Proof.
  eexists. split; [reflexivity|].
  split; [vm_compute; reflexivity|].
  apply aplicar_at_least_two_records with (fuel := 1) (tf := 0%Q).
  vm_compute. reflexivity.
Defined.

(** With [tf = t0] the call on the growth system ends and what it returns
    has two records or more; with [h = 0] and [tf = 1] it returns nothing;
    on floats too a returned trajectory has two records or more. *)
Lemma aplicar_validates_nothing_witness :
  (0 < 1 # 10)%Q /\ (0 <= 0)%Q /\
  (exists fuel res, run fuel rk_growth 0%Q = Some res) /\
  (forall fuel traj,
     run fuel rk_growth 0%Q = Some (Ok traj) -> 2 <= List.length traj) /\
  (0 <= 0)%Q /\ (0 + half_ulp < 1)%Q /\
  (forall fuel traj,
     run fuel (__init__ [growth] 0%Q [1%Q] 0%Q 2 a_rk2 b_rk2) 1%Q
     <> Some (Ok traj)) /\
  (forall fuel traj,
     run fuel rk_growth_float 1.0%float = Some (Ok traj) ->
     2 <= List.length traj).
Proof.
  split; [reflexivity|]. split; [apply Qle_refl|].
  destruct aplicar_validates_nothing as [Hany Hexact].
  split; [|split; [|split; [apply Qle_refl | split; [reflexivity | split]]]].
  - apply (proj1 (Hexact [growth] 0%Q [1%Q] (1 # 10)%Q 2 a_rk2 b_rk2 0%Q)).
    + reflexivity.
    + apply Qle_refl.
  - apply (proj2 (Hany Q _ [growth] 0%Q [1%Q] (1 # 10)%Q 2 a_rk2 b_rk2 0%Q)).
  - apply (proj2 (Hexact [growth] 0%Q [1%Q] 0%Q 2 a_rk2 b_rk2 1%Q)).
    + apply Qle_refl.
    + reflexivity.
  - apply (proj2 (Hany PrimFloat.float float_Number [growth] (float_of_int 0)
                    [float_of_int 1] (nearest_float 1 10) 2
                    [[float_of_int 0; float_of_int 0];
                     [nearest_float 2 3; float_of_int 0]]
                    [nearest_float 1 4; nearest_float 3 4] 1.0%float)).
Defined.

Lemma aplicar_stops_at_rounded_tf_witness :
  (0 < 1 # 10)%Q /\ (0 < 1)%Q /\
  run 10 rk_growth 1%Q = Some (Ok growth_trajectory) /\
  (exists earlier t_last y_last,
     growth_trajectory = [0; 1]%Q :: earlier ++ [t_last :: y_last] /\
     ge (round t_last 10) 1%Q = true /\
     forall rec, In rec earlier ->
       exists t ys, rec = t :: ys /\ ge (round t 10) 1%Q = false) /\
  (exists fuel res, run fuel rk_growth 1%Q = Some res) /\
  (forall fuel traj,
    run fuel rk_growth 1%Q = Some (Ok traj) ->
    exists earlier t_last y_last,
      traj = [0; 1]%Q :: earlier ++ [t_last :: y_last] /\
      (1 <= round t_last 10)%Q /\
      (forall rec, In rec earlier ->
         exists t ys, rec = t :: ys /\ (round t 10 < 1)%Q) /\
      (1 - half_ulp <= t_last)%Q /\
      (t_last < 1 + (1 # 10) + half_ulp)%Q) /\
  run 10 rk_growth_float 1.0%float = Some (Ok growth_trajectory_float) /\
  exists earlier t_last y_last,
    growth_trajectory_float
    = [float_of_int 0; float_of_int 1] :: earlier ++ [t_last :: y_last] /\
    ge (round t_last 10) 1.0%float = true /\
    forall rec, In rec earlier ->
      exists t ys, rec = t :: ys /\ ge (round t 10) 1.0%float = false.
Proof.
  split; [reflexivity|]. split; [reflexivity|].
  assert (Hrun : run 10 rk_growth 1%Q = Some (Ok growth_trajectory))
    by (vm_compute; reflexivity).
  assert (Hfloat : run 10 rk_growth_float 1.0%float
                   = Some (Ok growth_trajectory_float))
    by (vm_compute; reflexivity).
  split; [exact Hrun|].
  destruct aplicar_stops_at_rounded_tf as [Hany Hexact].
  destruct (Hexact [growth] 0%Q [1%Q] (1 # 10)%Q 2 a_rk2 b_rk2 1%Q
              eq_refl eq_refl) as [Hends Hlast].
  split; [|split; [exact Hends | split; [exact Hlast |
                                         split; [exact Hfloat|]]]].
  - apply (Hany Q _ [growth] 0%Q [1%Q] (1 # 10)%Q 2 a_rk2 b_rk2 1%Q 10).
    exact Hrun.
  - apply (Hany PrimFloat.float float_Number [growth] (float_of_int 0)
             [float_of_int 1] (nearest_float 1 10) 2
             [[float_of_int 0; float_of_int 0];
              [nearest_float 2 3; float_of_int 0]]
             [nearest_float 1 4; nearest_float 3 4] 1.0%float 10).
    exact Hfloat.
Defined.

Lemma aplicar_instants_spaced_by_h_witness :
  run 10 rk_growth 1%Q = Some (Ok growth_trajectory) /\
  nth_error growth_trajectory 9 = Some [9 # 10; 2357947691 # 1000000000]%Q /\
  nth_error growth_trajectory 10 = Some [1; 25937424601 # 10000000000]%Q /\
  (exists t ys t' ys',
     [9 # 10; 2357947691 # 1000000000]%Q = t :: ys /\
     [1; 25937424601 # 10000000000]%Q = t' :: ys' /\
     t' = add t (1 # 10)%Q) /\
  (exists t ys t' ys',
    [9 # 10; 2357947691 # 1000000000]%Q = t :: ys /\
    [1; 25937424601 # 10000000000]%Q = t' :: ys' /\
    (t' - t == 1 # 10)%Q /\ ((0 < 1 # 10)%Q -> (t < t')%Q)) /\
  run 10 rk_growth_float 1.0%float = Some (Ok growth_trajectory_float) /\
  nth_error growth_trajectory_float 2
  = Some [0.2; 1.2100000000000002]%float /\
  nth_error growth_trajectory_float 3
  = Some [0.30000000000000004; 1.3310000000000002]%float /\
  exists t ys t' ys',
    [0.2; 1.2100000000000002]%float = t :: ys /\
    [0.30000000000000004; 1.3310000000000002]%float = t' :: ys' /\
    t' = add t (nearest_float 1 10).
Proof.
  assert (Hrun : run 10 rk_growth 1%Q = Some (Ok growth_trajectory))
    by (vm_compute; reflexivity).
  assert (Hfloat : run 10 rk_growth_float 1.0%float
                   = Some (Ok growth_trajectory_float))
    by (vm_compute; reflexivity).
  split; [exact Hrun|]. split; [reflexivity|]. split; [reflexivity|].
  destruct aplicar_instants_spaced_by_h as [Hany Hexact].
  split; [|split; [|split; [exact Hfloat |
                            split; [reflexivity | split; [reflexivity|]]]]].
  - apply (Hany Q _ [growth] 0%Q [1%Q] (1 # 10)%Q 2 a_rk2 b_rk2 10 1%Q
             growth_trajectory 9); [exact Hrun | reflexivity | reflexivity].
  - apply (Hexact [growth] 0%Q [1%Q] (1 # 10)%Q 2 a_rk2 b_rk2 10 1%Q
             growth_trajectory 9); [exact Hrun | reflexivity | reflexivity].
  - apply (Hany PrimFloat.float float_Number [growth] (float_of_int 0)
             [float_of_int 1] (nearest_float 1 10) 2
             [[float_of_int 0; float_of_int 0];
              [nearest_float 2 3; float_of_int 0]]
             [nearest_float 1 4; nearest_float 3 4] 10 1.0%float
             growth_trajectory_float 2);
      [exact Hfloat | reflexivity | reflexivity].
Defined.

(** ** What a run needs from its inputs *)

Section Shapes.

Context {num : Type} {NumOps : Number num}.

Implicit Types (self : @RK num) (tf tk : num) (yk : list num).

Lemma bind_assoc {A B C : Type} (m : result A) (k : A -> result B)
    (k' : B -> result C) :
  bind (bind m k) k' = bind m (fun x => bind (k x) k').
Proof.
  destruct m; reflexivity.
Qed.

(** A returned trajectory starts with the initial record and the record of
    the first step. *)
Lemma aplicar_at_least_two self (fuel : nat) tf (traj : list (list num)) :
  aplicar fuel self tf = Some (Ok traj) ->
  exists t1 y1 rest,
    yk1 self (t0 self) (y0 self) = Ok (t1, y1) /\
    traj = (t0 self :: y0 self) :: (t1 :: y1) :: rest.
Proof.
  intros Hrun. unfold aplicar in Hrun. apply aplicar_loop_ok in Hrun.
  destruct Hrun as [new [-> Hnew]].
  destruct Hnew as [tk yk t1 y1 Hstep _ | tk yk t1 y1 rest Hstep _ _].
  - exists t1, y1, []. split; [exact Hstep | reflexivity].
  - exists t1, y1, rest. split; [exact Hstep | reflexivity].
Qed.

(** A comprehension whose items succeed returns. *)
Lemma comprehension_seq_all_ok {B : Type} (body : nat -> result B)
    (k s : nat) :
  (forall i, i < k -> exists x, body (s + i) = Ok x) ->
  exists xs, comprehension body (seq s k) = Ok xs.
Proof.
  revert s. induction k as [|k IH]; intros s Hall; simpl.
  - exists []. reflexivity.
  - destruct (Hall 0 ltac:(lia)) as [x Hx]. rewrite Nat.add_0_r in Hx.
    destruct (IH (S s)) as [xs Hxs].
    { intros i Hi. destruct (Hall (S i) ltac:(lia)) as [x' Hx'].
      exists x'. replace (S s + i) with (s + S i) by lia. exact Hx'. }
    exists (x :: xs). rewrite Hx. simpl. rewrite Hxs. reflexivity.
Qed.

Lemma comprehension_all_ok {B : Type} (body : nat -> result B) (k : nat) :
  (forall i, i < k -> exists x, body i = Ok x) ->
  exists xs, comprehension body (range k) = Ok xs /\ List.length xs = k.
Proof.
  intros Hall. destruct (@comprehension_seq_all_ok B body k 0 Hall) as [xs Hxs].
  exists xs. split; [exact Hxs|].
  apply comprehension_length in Hxs. rewrite Hxs. apply length_seq.
Qed.

(** A sum whose items succeed returns. *)
Lemma sum_all_ok (item : nat -> result num) (k : nat) :
  (forall r, r < k -> exists x, item r = Ok x) ->
  exists v, sum (map item (range k)) = Ok v.
Proof.
  intros Hall. destruct (@comprehension_all_ok num item k Hall) as [terms [Hc Hlen]].
  exists (fold_left add terms (of_int 0)). apply sum_range_ok.
  exists terms. split; [exact Hlen | split; [|reflexivity]].
  apply comprehension_range_nth in Hc. apply Hc.
Qed.

(** A comprehension ends on the exception of its first failing item; here
    every item before it returns or raises that same exception. *)
Lemma comprehension_seq_raises {B : Type} (body : nat -> result B)
    (k s j : nat) (e : exception) :
  j < k -> body (s + j) = Err e ->
  (forall i, i < j -> body (s + i) = Err e \/ exists x, body (s + i) = Ok x) ->
  comprehension body (seq s k) = Err e.
Proof.
  revert s j. induction k as [|k IH]; intros s j Hj Hbody Hbefore; [lia|].
  simpl. destruct j as [|j].
  - rewrite Nat.add_0_r in Hbody. rewrite Hbody. reflexivity.
  - destruct (Hbefore 0 ltac:(lia)) as [H0 | [x H0]];
      rewrite Nat.add_0_r in H0; rewrite H0; simpl; [reflexivity|].
    rewrite (IH (S s) j); [reflexivity | lia | |].
    + replace (S s + j) with (s + S j) by lia. exact Hbody.
    + intros i Hi. replace (S s + i) with (s + S i) by lia.
      apply Hbefore. lia.
Qed.

Lemma index_raises {A : Type} (xs : list A) (i : nat) (e : exception) :
  index xs i = Err e -> e = IndexError.
Proof.
  unfold index. destruct (nth_error xs i); congruence.
Qed.

Lemma index_past_end {A : Type} (xs : list A) (i : nat) :
  List.length xs <= i -> index xs i = Err IndexError.
Proof.
  intros Hi. apply nth_error_None in Hi. unfold index. rewrite Hi.
  reflexivity.
Qed.

(** *** The entries of the matrix that are read *)

(** Two matrices agree where the stages read them when they give the same
    answer, value or [IndexError], at every position [a[r][s]] with
    [s < r - 1]. *)
Lemma kappa_rec_same_reads (R' n' : nat) (f' : list func) (t0' : num)
    (y0' : list num) (h' : num) (a1 a2 : list (list num)) (b' c' : list num)
    (q : Z) (fi : func) (t : num) (y : list num) (d r : nat) :
  (forall r s, s + 1 < r ->
     (ar <- index a1 r ;; index ar s) = (ar <- index a2 r ;; index ar s)) ->
  kappa_rec d (Build_RK R' n' f' t0' y0' h' a1 b' c' q) fi t y r =
  kappa_rec d (Build_RK R' n' f' t0' y0' h' a2 b' c' q) fi t y r.
Proof.
  intros Hreads. revert r. induction d as [|d IH]; intros r; [reflexivity|].
  simpl.
  assert (Hmap :
    map (fun s => ar <- index a1 r ;; ars <- index ar s ;;
                  ks <- kappa_rec d (Build_RK R' n' f' t0' y0' h' a1 b' c' q)
                          fi t y s ;;
                  Ok (mul ars ks)) (range (r - 1)) =
    map (fun s => ar <- index a2 r ;; ars <- index ar s ;;
                  ks <- kappa_rec d (Build_RK R' n' f' t0' y0' h' a2 b' c' q)
                          fi t y s ;;
                  Ok (mul ars ks)) (range (r - 1))).
  { apply map_ext_in. intros s Hs. unfold range in Hs. apply in_seq in Hs.
    pose proof (Hreads r s ltac:(lia)) as Hrs. rewrite IH.
    destruct (index a1 r) as [ar1|e1], (index a2 r) as [ar2|e2];
      simpl in Hrs |- *.
    - rewrite Hrs. reflexivity.
    - rewrite Hrs. reflexivity.
    - rewrite <- Hrs. reflexivity.
    - congruence. }
  rewrite Hmap. reflexivity.
Qed.

Lemma aplicar_loop_same_reads (R' n' : nat) (f' : list func) (t0' : num)
    (y0' : list num) (h' : num) (a1 a2 : list (list num)) (b' c' : list num)
    (q : Z) (fuel : nat) tf tk yk (pontos : list (list num)) :
  (forall r s, s + 1 < r ->
     (ar <- index a1 r ;; index ar s) = (ar <- index a2 r ;; index ar s)) ->
  aplicar_loop fuel (Build_RK R' n' f' t0' y0' h' a1 b' c' q) tf tk yk pontos =
  aplicar_loop fuel (Build_RK R' n' f' t0' y0' h' a2 b' c' q) tf tk yk pontos.
Proof.
  intros Hreads.
  assert (Hphi : forall fi t y,
    phi (Build_RK R' n' f' t0' y0' h' a1 b' c' q) fi t y =
    phi (Build_RK R' n' f' t0' y0' h' a2 b' c' q) fi t y).
  { intros fi t y. unfold phi. f_equal. apply map_ext. intros r.
    unfold kappa. rewrite kappa_rec_same_reads with (a2 := a2) by exact Hreads.
    reflexivity. }
  assert (Hstep : forall t y,
    yk1 (Build_RK R' n' f' t0' y0' h' a1 b' c' q) t y =
    yk1 (Build_RK R' n' f' t0' y0' h' a2 b' c' q) t y).
  { intros t y. unfold yk1. f_equal. apply comprehension_ext. intros i _.
    simpl. destruct (index y i); simpl; [|reflexivity].
    destruct (index f' i); simpl; [|reflexivity].
    rewrite Hphi. reflexivity. }
  revert tk yk pontos. induction fuel as [|fuel IH]; intros tk yk pontos;
    [reflexivity|].
  cbn [aplicar_loop]. rewrite Hstep.
  destruct (yk1 (Build_RK R' n' f' t0' y0' h' a2 b' c' q) tk yk)
    as [[tk' yk']|e]; [|reflexivity].
  cbn [qntdCasasArredondamento]. rewrite IH. reflexivity.
Qed.

(** X1.  A run reads its matrix through the row sums and through the
    entries [a[r][s]] with [s < r - 1] alone: two matrices with the same
    row sums that agree at those positions give the same outcome, whatever
    they hold on the diagonal, on the sub-diagonal and above. *)
Theorem run_reads_matrix_below_subdiagonal (f : list func) (t0 : num)
    (y0 : list num) (h : num) (R : nat) (a1 a2 : list (list num))
    (b : list num) (fuel : nat) tf :
  map row_sum a1 = map row_sum a2 ->
  (forall r s, s + 1 < r ->
     (ar <- index a1 r ;; index ar s) = (ar <- index a2 r ;; index ar s)) ->
  run fuel (__init__ f t0 y0 h R a1 b) tf =
  run fuel (__init__ f t0 y0 h R a2 b) tf.
Proof.
  intros Hsums Hreads. cbn [run __init__]. unfold aplicar. simpl.
  rewrite Hsums. apply aplicar_loop_same_reads. exact Hreads.
Qed.

(** *** A state shorter than the system *)

Lemma kappa_short_state self (fi : func) (t : num) (y : list num) :
  List.length y < n self -> kappa self fi t y 0 = Err IndexError.
Proof.
  intros Hshort. rewrite kappa_eq.
  destruct (index (c self) 0) as [cr|e] eqn:Hc; simpl.
  - unfold range.
    rewrite comprehension_seq_raises
      with (j := List.length y) (e := IndexError); [reflexivity | exact Hshort | |].
    + simpl. rewrite index_past_end by lia. reflexivity.
    + intros i Hi. right. simpl.
      destruct (index_lt y Hi) as [yi Hyi]. rewrite Hyi. simpl.
      eexists. reflexivity.
  - apply index_raises in Hc. subst e. reflexivity.
Qed.

Lemma phi_short_state self (fi : func) (t : num) (y : list num) :
  List.length y < n self ->
  phi self fi t y = Err IndexError \/ exists p, phi self fi t y = Ok p.
Proof.
  intros Hshort. unfold phi. destruct (R self) as [|R'].
  - right. eexists. reflexivity.
  - left. unfold range. simpl. unfold sum. simpl.
    destruct (index (b self) 0) as [b0|e] eqn:Hb; simpl.
    + rewrite kappa_short_state by exact Hshort. reflexivity.
    + apply index_raises in Hb. subst e. reflexivity.
Qed.

Lemma yk1_short_state self tk yk :
  List.length yk < n self -> yk1 self tk yk = Err IndexError.
Proof.
  intros Hshort. unfold yk1, range.
  rewrite comprehension_seq_raises
    with (j := List.length yk) (e := IndexError); [reflexivity | exact Hshort | |].
  - simpl. rewrite index_past_end by lia. reflexivity.
  - intros i Hi. simpl.
    destruct (index_lt yk Hi) as [yi Hyi]. rewrite Hyi. simpl.
    destruct (index (f self) i) as [fi|e] eqn:Hf; simpl.
    + destruct (phi_short_state self fi tk yk Hshort) as [Hphi | [p Hphi]];
        rewrite Hphi; simpl; [left; reflexivity | right; eexists; reflexivity].
    + apply index_raises in Hf. subst e. left. reflexivity.
Qed.

(** X2.  With fewer initial values than equations the call raises
    [IndexError] at its first step, whatever the derivative functions, the
    tableau and [tf] are. *)
Theorem run_short_initial_state (f : list func) (t0 : num) (y0 : list num)
    (h : num) (R : nat) (a : list (list num)) (b : list num) (fuel : nat) tf :
  List.length y0 < List.length f ->
  run (S fuel) (__init__ f t0 y0 h R a b) tf = Some (Err IndexError).
Proof.
  intros Hshort. cbn [run __init__]. unfold aplicar. cbn [aplicar_loop].
  rewrite yk1_short_state by exact Hshort. reflexivity.
Qed.

(** *** A tableau shorter than the stage count *)





(** *** The shape of the records *)

Lemma run_from_record_length self tf tk yk (new : list (list num)) :
  run_from self tf tk yk new ->
  forall rec, In rec new -> List.length rec = S (n self).
Proof.
  intros Hrun. induction Hrun as [tk yk tk' yk' Hstep Hge
                                 |tk yk tk' yk' rest Hstep Hge Hrun IH];
    intros rec Hin; apply yk1_ok in Hstep; destruct Hstep as [_ [Hlen _]].
  - destruct Hin as [<- | []]. simpl. rewrite Hlen. reflexivity.
  - destruct Hin as [<- | Hin]; [simpl; rewrite Hlen; reflexivity|].
    apply IH. exact Hin.
Qed.

(** X4.  In a returned trajectory the first record has one entry more than
    the initial state and every later record has one entry more than there
    are equations, also when the initial state is longer than the system:
    the surplus initial values appear in the first record alone. *)
Theorem aplicar_record_lengths (f : list func) (t0 : num) (y0 : list num)
    (h : num) (R : nat) (a : list (list num)) (b : list num) (fuel : nat) tf
    (traj : list (list num)) :
  run fuel (__init__ f t0 y0 h R a b) tf = Some (Ok traj) ->
  (exists rec, nth_error traj 0 = Some rec /\
               List.length rec = S (List.length y0)) /\
  forall k rec, nth_error traj (S k) = Some rec ->
                List.length rec = S (List.length f).
Proof.
  cbn [run __init__]. unfold aplicar. intros Hrun.
  apply aplicar_loop_ok in Hrun. destruct Hrun as [new [-> Hrun]]. split.
  - eexists. split; reflexivity.
  - intros k rec Hk. simpl in Hk. apply nth_error_In in Hk.
    apply (run_from_record_length Hrun) in Hk. exact Hk.
Qed.

(** *** When a step cannot fail *)

Lemma kappa_returns self (fi : func) (t : num) (y : list num) :
  (forall t' ys, List.length ys = n self -> exists v, fi t' ys = Ok v) ->
  n self <= List.length y ->
  forall r,
    r < List.length (c self) ->
    (forall r', r' <= r -> exists row,
        nth_error (a self) r' = Some row /\ r' - 1 <= List.length row) ->
    exists v, kappa self fi t y r = Ok v.
Proof.
  intros Hfi Hy r. induction r as [r IH] using lt_wf_ind. intros Hc Hrows.
  rewrite kappa_eq.
  destruct (index_lt (c self) Hc) as [cr Hcr]. rewrite Hcr. simpl.
  destruct (Hrows r (Nat.le_refl r)) as [row [Hrow Hlen]].
  apply index_ok in Hrow.
  destruct (@sum_all_ok
              (fun s => ar <- index (a self) r ;; ars <- index ar s ;;
                        ks <- kappa self fi t y s ;; Ok (mul ars ks))
              (r - 1)) as [acc Hacc].
  { intros s Hs. rewrite Hrow. simpl.
    destruct (index_lt row (i := s) ltac:(lia)) as [ars Hars].
    rewrite Hars. simpl.
    destruct (IH s ltac:(lia) ltac:(lia)) as [ks Hks].
    { intros r' Hr'. apply Hrows. lia. }
    rewrite Hks. simpl. eexists. reflexivity. }
  destruct (@comprehension_all_ok num
              (fun i => yi <- index y i ;;
                        acc <- sum (map (fun s =>
                                 ar <- index (a self) r ;;
                                 ars <- index ar s ;;
                                 ks <- kappa self fi t y s ;;
                                 Ok (mul ars ks)) (range (r - 1))) ;;
                        Ok (add yi (mul (h self) acc)))
              (n self)) as [termos [Hterms Hlen']].
  { intros i Hi. destruct (index_lt y (i := i) ltac:(lia)) as [yi Hyi].
    rewrite Hyi. simpl. rewrite Hacc. simpl. eexists. reflexivity. }
  rewrite Hterms. simpl. apply Hfi. exact Hlen'.
Qed.

(** With enough weights, rows and state, and derivative functions that
    return on [n] arguments, a step returns. *)
Lemma yk1_returns self tk yk :
  n self = List.length (f self) ->
  (forall fi, In fi (f self) ->
     forall t ys, List.length ys = n self -> exists v, fi t ys = Ok v) ->
  R self <= List.length (b self) ->
  R self <= List.length (c self) ->
  (forall r, r < R self -> exists row,
      nth_error (a self) r = Some row /\ r - 1 <= List.length row) ->
  n self <= List.length yk ->
  exists tk' yk', yk1 self tk yk = Ok (tk', yk') /\ List.length yk' = n self.
Proof.
  intros Hn Hf Hb Hc Hrows Hy. unfold yk1.
  destruct (@comprehension_all_ok num
              (fun i => yi <- index yk i ;; fi <- index (f self) i ;;
                        p <- phi self fi tk yk ;;
                        Ok (add yi (mul (h self) p)))
              (n self)) as [ys [Hys Hlen]].
  { intros i Hi. destruct (index_lt yk (i := i) ltac:(lia)) as [yi Hyi].
    rewrite Hyi. simpl.
    destruct (index_lt (f self) (i := i) ltac:(lia)) as [fi Hfi].
    rewrite Hfi. simpl.
    assert (Hin : In fi (f self)).
    { apply index_ok in Hfi. eapply nth_error_In. exact Hfi. }
    destruct (@sum_all_ok
                (fun r => br <- index (b self) r ;;
                          kr <- kappa self fi tk yk r ;; Ok (mul br kr))
                (R self)) as [p Hp].
    { intros r Hr. destruct (index_lt (b self) (i := r) ltac:(lia)) as [br Hbr].
      rewrite Hbr. simpl.
      destruct (@kappa_returns self fi tk yk (Hf fi Hin) Hy r ltac:(lia))
        as [kr Hkr].
      { intros r' Hr'. apply Hrows. lia. }
      rewrite Hkr. simpl. eexists. reflexivity. }
    unfold phi. rewrite Hp. simpl. eexists. reflexivity. }
  rewrite Hys. simpl. eexists. eexists. split; [reflexivity | exact Hlen].
Qed.

(** No step fails in a run that starts with enough state. *)
Lemma loop_reaches_state_length self tf (k : nat) tk yk :
  n self <= List.length (y0 self) ->
  loop_reaches self tf k tk yk -> n self <= List.length yk.
Proof.
  intros Hy0 Hreach. destruct Hreach as [|k tk yk tk' yk' _ Hstep _].
  - exact Hy0.
  - apply yk1_ok in Hstep. destruct Hstep as [_ [Hlen _]]. lia.
Qed.

End Shapes.

(** ** Runs on exact rationals *)

Section FractionRuns.

Implicit Types (self : @RK Q) (tf tk : Q) (yk : list Q).

(** X5.  With [h > 0], a tableau with at least [R] weights and [R] rows,
    each row [r] with at least [r - 1] entries, at least as many initial
    values as equations, and derivative functions that return on as many
    arguments as there are equations, the call returns a trajectory. *)
Theorem aplicar_returns_trajectory (f : list func) (t0 : Q) (y0 : list Q)
    (h : Q) (R : nat) (a : list (list Q)) (b : list Q) (tf : Q) :
  (forall fi, In fi f ->
     forall t ys, List.length ys = List.length f -> exists v, fi t ys = Ok v) ->
  R <= List.length b ->
  R <= List.length a ->
  (forall r, r < R -> exists row,
      nth_error a r = Some row /\ r - 1 <= List.length row) ->
  List.length f <= List.length y0 ->
  (0 < h)%Q ->
  exists fuel traj, run fuel (__init__ f t0 y0 h R a b) tf = Some (Ok traj).
Proof.
  intros Hf Hb Ha Hrows Hy0 Hh. cbn [run __init__].
  set (self := Build_RK R (List.length f) f t0 y0 h a b (map row_sum a) 10).
  destruct (@aplicar_terminates self tf eq_refl Hh) as [fuel [res Hres]].
  exists fuel. destruct res as [traj|e]; [exists traj; exact Hres|].
  exfalso. unfold aplicar in Hres.
  eapply aplicar_loop_err in Hres; [|apply reaches_start].
  destruct Hres as [k [tk [yk [Hreach Hstep]]]].
  apply loop_reaches_state_length in Hreach; [|exact Hy0].
  destruct (@yk1_returns Q _ self tk yk) as [tk' [yk' [Hok _]]];
    try assumption; try reflexivity.
  - simpl. rewrite length_map. exact Ha.
  - congruence.
Qed.

Lemma aplicar_instant_of_record self (fuel : nat) tf (traj : list (list Q))
    (k : nat) (rec : list Q) :
  aplicar fuel self tf = Some (Ok traj) ->
  nth_error traj k = Some rec ->
  exists t ys, rec = t :: ys /\
    (t == t0 self + inject_Z (Z.of_nat k) * h self)%Q.
Proof.
  unfold aplicar. intros Hrun.
  apply aplicar_loop_ok in Hrun. destruct Hrun as [new [-> Hrun]].
  revert rec. induction k as [|k IH]; intros rec Hk.
  - simpl in Hk. injection Hk as <-.
    exists (t0 self), (y0 self). split; [reflexivity|].
    change (inject_Z (Z.of_nat 0)) with 0%Q. lra.
  - destruct (nth_error ([t0 self :: y0 self] ++ new) k) as [prev|] eqn:Hprev.
    + destruct (IH prev eq_refl) as [t [ys [-> Ht]]].
      destruct (run_from_spacing Hrun k Hprev Hk)
        as [t1 [ys1 [t' [ys' [Heq [-> Ht']]]]]].
      injection Heq as <- <-.
      exists t', ys'. split; [reflexivity|].
      assert (Hadd : (t' == t + h self)%Q) by (subst t'; apply Fraction_add_eq).
      replace (Z.of_nat (S k)) with (Z.of_nat k + 1)%Z by lia.
      rewrite inject_Z_plus. change (inject_Z 1) with 1%Q. lra.
    + apply nth_error_None in Hprev.
      assert (S k < List.length ([t0 self :: y0 self] ++ new))
        by (apply nth_error_Some; congruence).
      lia.
Qed.

(** X6.  The instant of record [k] of a returned trajectory is
    [t0 + k * h] exactly: on exact numbers the instants carry no drift. *)
Theorem aplicar_instants_on_grid (f : list func) (t0 : Q) (y0 : list Q)
    (h : Q) (R : nat) (a : list (list Q)) (b : list Q) (fuel : nat) (tf : Q)
    (traj : list (list Q)) (k : nat) (rec : list Q) :
  run fuel (__init__ f t0 y0 h R a b) tf = Some (Ok traj) ->
  nth_error traj k = Some rec ->
  exists t ys, rec = t :: ys /\ (t == t0 + inject_Z (Z.of_nat k) * h)%Q.
Proof.
  cbn [run __init__]. intros Hrun Hk.
  destruct (aplicar_instant_of_record _ _ _ _ Hrun Hk) as [t [ys [-> Ht]]].
  exists t, ys. split; [reflexivity | exact Ht].
Qed.

(** A number with at most ten decimal places is its own rounding. *)
Lemma Fraction_round_on_grid (x : Q) (z : Z) :
  (x == inject_Z z * (1 # 10000000000))%Q -> (Fraction_round x 10 == x)%Q.
Proof.
  intros Hgrid. unfold Fraction_round.
  change (0 <? 10)%Z with true. cbv iota.
  set (shift := (10 ^ Z.abs 10)%Z).
  set (xs := (x * inject_Z shift)%Q).
  assert (Hxs : (xs == inject_Z z)%Q).
  { unfold xs. change (inject_Z shift) with 10000000000%Q. lra. }
  clearbody xs.
  assert (Hnum : Qnum xs = (z * Zpos (Qden xs))%Z).
  { unfold Qeq, inject_Z in Hxs. simpl in Hxs. lia. }
  assert (Hround : round_half_even (Qnum xs) (Zpos (Qden xs)) = z).
  { unfold round_half_even. rewrite Hnum.
    rewrite Z.div_mul by discriminate. rewrite Z.mod_mul by discriminate.
    reflexivity. }
  rewrite Hround, Qred_correct.
  assert (Hz : (z # Z.to_pos shift == inject_Z z * (1 # 10000000000))%Q).
  { unfold Qeq, Qmult, inject_Z. simpl. lia. }
  lra.
Qed.

Lemma run_from_counts self tf (z : Z) tk yk (new : list (list Q)) (j : nat) :
  qntdCasasArredondamento self = 10%Z -> (half_ulp < h self)%Q ->
  (tf == inject_Z z * (1 # 10000000000))%Q ->
  (tf == tk + inject_Z (Z.of_nat (S j)) * h self)%Q ->
  run_from self tf tk yk new ->
  List.length new = S j /\
  exists t ys, last new [] = t :: ys /\ (t == tf)%Q.
Proof.
  intros Hplaces Hh Hgrid Htf Hrun. revert j Htf.
  assert (Hh0 : (0 < h self)%Q) by (unfold half_ulp in Hh; lra).
  induction Hrun as [tk yk tk' yk' Hstep Hge
                    |tk yk tk' yk' rest Hstep Hge Hrun IH]; intros j Htf.
  - rewrite Hplaces in Hge. apply Fraction_ge_true in Hge.
    apply yk1_instant_eq in Hstep.
    destruct (Fraction_round_10 tk') as [_ Hup].
    change (round tk' 10) with (Fraction_round tk' 10) in Hge.
    destruct j as [|j].
    + change (inject_Z (Z.of_nat 1)) with 1%Q in Htf.
      split; [reflexivity|]. exists tk', yk'. split; [reflexivity | lra].
    + exfalso.
      replace (Z.of_nat (S (S j))) with (Z.of_nat j + 2)%Z in Htf by lia.
      rewrite inject_Z_plus in Htf. change (inject_Z 2) with 2%Q in Htf.
      assert (Hj : (0 <= inject_Z (Z.of_nat j) * h self)%Q).
      { apply Qmult_le_0_compat; [|lra].
        change 0%Q with (inject_Z 0). rewrite <- Zle_Qle. lia. }
      lra.
  - rewrite Hplaces in Hge. apply Fraction_ge_false in Hge.
    apply yk1_instant_eq in Hstep.
    change (round tk' 10) with (Fraction_round tk' 10) in Hge.
    destruct j as [|j].
    + exfalso. change (inject_Z (Z.of_nat 1)) with 1%Q in Htf.
      assert (Hon : (tk' == inject_Z z * (1 # 10000000000))%Q) by lra.
      apply Fraction_round_on_grid in Hon. lra.
    + destruct (IH j) as [Hlen [t [ys [Hlast Ht]]]].
      { replace (Z.of_nat (S (S j))) with (Z.of_nat (S j) + 1)%Z in Htf by lia.
        rewrite inject_Z_plus in Htf. change (inject_Z 1) with 1%Q in Htf.
        lra. }
      split; [simpl; lia|].
      exists t, ys. split; [|exact Ht].
      destruct rest as [|rec rest']; [discriminate|]. exact Hlast.
Qed.

(** X7.  When [tf] has at most ten decimal places and lies [m >= 1] whole
    steps after [t0], with a step above half a unit of the tenth place, a
    returned trajectory has [m + 1] records and its final instant is [tf]
    itself. *)
Theorem aplicar_reaches_tf_exactly (f : list func) (t0 : Q) (y0 : list Q)
    (h : Q) (R : nat) (a : list (list Q)) (b : list Q) (fuel : nat) (tf : Q)
    (traj : list (list Q)) (m : nat) (z : Z) :
  (half_ulp < h)%Q ->
  (tf == inject_Z z * (1 # 10000000000))%Q ->
  (tf == t0 + inject_Z (Z.of_nat (S m)) * h)%Q ->
  run fuel (__init__ f t0 y0 h R a b) tf = Some (Ok traj) ->
  List.length traj = S (S m) /\
  exists t ys, last traj [] = t :: ys /\ (t == tf)%Q.
Proof.
  intros Hh Hgrid Htf. cbn [run __init__]. unfold aplicar. intros Hrun.
  apply aplicar_loop_ok in Hrun. destruct Hrun as [new [-> Hrun]].
  apply run_from_counts with (z := z) (j := m) in Hrun;
    [|reflexivity | exact Hh | exact Hgrid | exact Htf].
  destruct Hrun as [Hlen [t [ys [Hlast Ht]]]].
  split; [simpl; lia|].
  exists t, ys. split; [|exact Ht].
  destruct new as [|rec rest]; [discriminate|]. exact Hlast.
Qed.

Lemma run_from_prefix self tf tf' tk yk (new new' : list (list Q)) :
  (tf <= tf')%Q ->
  run_from self tf tk yk new -> run_from self tf' tk yk new' ->
  exists more, new' = new ++ more.
Proof.
  intros Hle Hrun. revert new'.
  induction Hrun as [tk yk tk' yk' Hstep Hge
                    |tk yk tk' yk' rest Hstep Hge Hrun IH]; intros new' Hrun'.
  - inversion Hrun' as [? ? tk2 yk2 Hstep2 Hge2
                       |? ? tk2 yk2 rest2 Hstep2 Hge2 Hrest2]; subst;
      rewrite Hstep in Hstep2; injection Hstep2 as <- <-.
    + exists []. reflexivity.
    + exists rest2. reflexivity.
  - inversion Hrun' as [? ? tk2 yk2 Hstep2 Hge2
                       |? ? tk2 yk2 rest2 Hstep2 Hge2 Hrest2]; subst;
      rewrite Hstep in Hstep2; injection Hstep2 as <- <-.
    + exfalso. apply Fraction_ge_false in Hge. apply Fraction_ge_true in Hge2.
      lra.
    + destruct (IH rest2 Hrest2) as [more ->].
      exists more. reflexivity.
Qed.

(** X8.  Asking for a later final instant extends the trajectory: the
    trajectory returned for [tf] is the beginning of the one returned for
    any [tf' >= tf], record for record. *)
Theorem aplicar_extends_with_tf (f : list func) (t0 : Q) (y0 : list Q)
    (h : Q) (R : nat) (a : list (list Q)) (b : list Q) (fuel fuel' : nat)
    (tf tf' : Q) (traj traj' : list (list Q)) :
  (tf <= tf')%Q ->
  run fuel (__init__ f t0 y0 h R a b) tf = Some (Ok traj) ->
  run fuel' (__init__ f t0 y0 h R a b) tf' = Some (Ok traj') ->
  exists more, traj' = traj ++ more.
Proof.
  intros Hle. cbn [run __init__]. unfold aplicar. intros Hrun Hrun'.
  apply aplicar_loop_ok in Hrun. destruct Hrun as [new [-> Hrun]].
  apply aplicar_loop_ok in Hrun'. destruct Hrun' as [new' [-> Hrun']].
  destruct (run_from_prefix Hle Hrun Hrun') as [more ->].
  exists more. rewrite app_assoc. reflexivity.
Qed.

End FractionRuns.

(** ** The example scripts *)

Section ScriptFacts.

Context {num : Type} {NumOps : Number num}.

(** *** The layout of the initial state *)

Lemma y0_append_ok (k s : nat) (pos mom : list (list num))
    (acc y0 : list num) :
  y0_append (seq s k) pos mom acc = Ok y0 ->
  exists tail, y0 = acc ++ tail /\ List.length tail = 4 * k /\
    forall j, j < k -> exists p q x px y py,
      nth_error pos (s + j) = Some p /\ nth_error mom (s + j) = Some q /\
      nth_error p 0 = Some x /\ nth_error q 0 = Some px /\
      nth_error p 1 = Some y /\ nth_error q 1 = Some py /\
      nth_error tail (4 * j) = Some x /\
      nth_error tail (4 * j + 1) = Some px /\
      nth_error tail (4 * j + 2) = Some y /\
      nth_error tail (4 * j + 3) = Some py.
Proof.
  revert s acc y0. induction k as [|k IH]; intros s acc y0; simpl.
  - intros Heq. injection Heq as <-. exists []. rewrite app_nil_r.
    split; [reflexivity | split; [reflexivity | intros j Hj; lia]].
  - intros Heq.
    apply bind_ok in Heq. destruct Heq as [p [Hp Heq]].
    apply bind_ok in Heq. destruct Heq as [x [Hx Heq]].
    apply bind_ok in Heq. destruct Heq as [q [Hq Heq]].
    apply bind_ok in Heq. destruct Heq as [px [Hpx Heq]].
    apply bind_ok in Heq. destruct Heq as [p' [Hp' Heq]].
    rewrite Hp in Hp'. injection Hp' as <-.
    apply bind_ok in Heq. destruct Heq as [y [Hy Heq]].
    apply bind_ok in Heq. destruct Heq as [q' [Hq' Heq]].
    rewrite Hq in Hq'. injection Hq' as <-.
    apply bind_ok in Heq. destruct Heq as [py [Hpy Heq]].
    apply IH in Heq. destruct Heq as [tail [-> [Hlen Hrest]]].
    apply index_ok in Hp, Hx, Hq, Hpx, Hy, Hpy.
    exists ([x; px; y; py] ++ tail). split.
    + rewrite <- !app_assoc. reflexivity.
    + split; [simpl; lia|].
      intros [|j] Hj.
      * rewrite Nat.add_0_r. exists p, q, x, px, y, py.
        repeat split; assumption || reflexivity.
      * destruct (Hrest j ltac:(lia))
          as [p1 [q1 [x1 [px1 [y1 [py1 [H1 [H2 [H3 [H4 [H5 [H6 [H7 [H8 [H9 H10]]]]]]]]]]]]]]].
        replace (S s + j) with (s + S j) in H1, H2 by lia.
        exists p1, q1, x1, px1, y1, py1.
        repeat split; try assumption.
        -- match goal with |- nth_error _ ?i = _ =>
             replace i with (4 + 4 * j) by lia end. exact H7.
        -- match goal with |- nth_error _ ?i = _ =>
             replace i with (4 + (4 * j + 1)) by lia end. exact H8.
        -- match goal with |- nth_error _ ?i = _ =>
             replace i with (4 + (4 * j + 2)) by lia end. exact H9.
        -- match goal with |- nth_error _ ?i = _ =>
             replace i with (4 + (4 * j + 3)) by lia end. exact H10.
Qed.

Lemma y0_append_returns (k s : nat) (pos mom : list (list num))
    (acc : list num) :
  (forall j, j < k -> exists p q,
      nth_error pos (s + j) = Some p /\ nth_error mom (s + j) = Some q /\
      2 <= List.length p /\ 2 <= List.length q) ->
  exists y0, y0_append (seq s k) pos mom acc = Ok y0.
Proof.
  revert s acc. induction k as [|k IH]; intros s acc Hall; simpl.
  - exists acc. reflexivity.
  - destruct (Hall 0 ltac:(lia)) as [p [q [Hp [Hq [Hlp Hlq]]]]].
    rewrite Nat.add_0_r in Hp, Hq.
    apply index_ok in Hp, Hq. rewrite Hp, Hq. simpl.
    destruct (index_lt p (i := 0) ltac:(lia)) as [x Hx].
    destruct (index_lt p (i := 1) ltac:(lia)) as [y Hy].
    destruct (index_lt q (i := 0) ltac:(lia)) as [px Hpx].
    destruct (index_lt q (i := 1) ltac:(lia)) as [py Hpy].
    rewrite Hx, Hy, Hpx, Hpy. simpl.
    apply IH. intros j Hj. destruct (Hall (S j) ltac:(lia)) as [p1 [q1 H1]].
    exists p1, q1. replace (S s + j) with (s + S j) by lia. exact H1.
Qed.

Lemma y0_append_raises (ixs : list nat) (pos mom : list (list num))
    (acc : list num) (e : exception) :
  y0_append ixs pos mom acc = Err e -> e = IndexError.
Proof.
  revert acc. induction ixs as [|i ixs IH]; intros acc; simpl; [discriminate|].
  destruct (index pos i) as [p|e1] eqn:Hp; simpl;
    [|intros Heq; injection Heq as <-; eapply index_raises; exact Hp].
  destruct (index p 0) as [x|e1] eqn:Hx; simpl;
    [|intros Heq; injection Heq as <-; eapply index_raises; exact Hx].
  destruct (index mom i) as [q|e1] eqn:Hq; simpl;
    [|intros Heq; injection Heq as <-; eapply index_raises; exact Hq].
  destruct (index q 0) as [px|e1] eqn:Hpx; simpl;
    [|intros Heq; injection Heq as <-; eapply index_raises; exact Hpx].
  destruct (index p 1) as [y|e1] eqn:Hy; simpl;
    [|intros Heq; injection Heq as <-; eapply index_raises; exact Hy].
  destruct (index q 1) as [py|e1] eqn:Hpy; simpl;
    [|intros Heq; injection Heq as <-; eapply index_raises; exact Hpy].
  apply IH.
Qed.

Lemma condicoes_iniciais_shape {M : Type} (m : list M)
    (pos mom : list (list num)) (y0 : list num) :
  condicoes_iniciais m pos mom = Ok y0 ->
  forall i, i < List.length m -> exists p q,
    nth_error pos i = Some p /\ nth_error mom i = Some q /\
    2 <= List.length p /\ 2 <= List.length q.
Proof.
  unfold condicoes_iniciais, range. intros Heq i Hi.
  apply y0_append_ok in Heq. destruct Heq as [tail [_ [_ Hall]]].
  destruct (Hall i Hi) as [p [q [x [px [y [py [Hp [Hq [_ [_ [Hy [Hpy _]]]]]]]]]]]].
  exists p, q. simpl in Hp, Hq. repeat split; try assumption.
  - assert (1 < List.length p) by (apply nth_error_Some; congruence). lia.
  - assert (1 < List.length q) by (apply nth_error_Some; congruence). lia.
Qed.

(** X9.  The initial state the scripts build has four entries per body, in
    the order x, px, y, py: entry [4*i] is the first position of body [i],
    [4*i+1] its first momentum, [4*i+2] its second position and [4*i+3]
    its second momentum. *)
Theorem condicoes_iniciais_layout {M : Type} (m : list M)
    (posicoes_iniciais momentos_iniciais : list (list num)) (y0 : list num) :
  condicoes_iniciais m posicoes_iniciais momentos_iniciais = Ok y0 ->
  List.length y0 = 4 * List.length m /\
  forall i, i < List.length m -> exists p q x px y py,
    nth_error posicoes_iniciais i = Some p /\
    nth_error momentos_iniciais i = Some q /\
    nth_error p 0 = Some x /\ nth_error q 0 = Some px /\
    nth_error p 1 = Some y /\ nth_error q 1 = Some py /\
    nth_error y0 (4 * i) = Some x /\
    nth_error y0 (4 * i + 1) = Some px /\
    nth_error y0 (4 * i + 2) = Some y /\
    nth_error y0 (4 * i + 3) = Some py.
Proof.
  unfold condicoes_iniciais, range. intros Heq.
  apply y0_append_ok in Heq. destruct Heq as [tail [-> [Hlen Hall]]].
  simpl. split; [exact Hlen | exact Hall].
Qed.

(** X10.  The scripts get an initial state exactly when every body has a
    position and a momentum of at least two components each; with fewer
    rows or components the loop raises [IndexError]. *)
Theorem condicoes_iniciais_returns {M : Type} (m : list M)
    (posicoes_iniciais momentos_iniciais : list (list num)) :
  ((exists y0,
      condicoes_iniciais m posicoes_iniciais momentos_iniciais = Ok y0) <->
   (forall i, i < List.length m -> exists p q,
      nth_error posicoes_iniciais i = Some p /\
      nth_error momentos_iniciais i = Some q /\
      2 <= List.length p /\ 2 <= List.length q)) /\
  (forall e,
     condicoes_iniciais m posicoes_iniciais momentos_iniciais = Err e ->
     e = IndexError).
Proof.
  split; [split|].
  - intros [y0 Heq] i Hi.
    eapply condicoes_iniciais_shape; eassumption.
  - intros Hall. unfold condicoes_iniciais, range.
    apply y0_append_returns. exact Hall.
  - intros e. apply y0_append_raises.
Qed.

(** *** Columns and strides *)

Lemma heads_nth {A : Type} (rows : list (list A)) (column : list A) :
  heads rows = Some column ->
  List.length column = List.length rows /\
  forall j row, nth_error rows j = Some row ->
    exists v, nth_error row 0 = Some v /\ nth_error column j = Some v.
Proof.
  revert column. induction rows as [|row0 rows IH]; intros column; simpl.
  - intros Heq. injection Heq as <-. split; [reflexivity|].
    intros j row Hj. destruct j; discriminate.
  - destruct row0 as [|x row0]; [discriminate|].
    destruct (heads rows) as [xs|] eqn:Hxs; [|discriminate].
    intros Heq. injection Heq as <-.
    destruct (IH xs eq_refl) as [Hlen Hnth]. split; [simpl; lia|].
    intros [|j] row Hj; simpl in Hj.
    + injection Hj as <-. exists x. split; reflexivity.
    + apply Hnth. exact Hj.
Qed.

Lemma nth_error_tl {A : Type} (row : list A) (c : nat) :
  nth_error (tl row) c = nth_error row (S c).
Proof.
  destruct row as [|x row]; [destruct c; reflexivity | reflexivity].
Qed.

Lemma zip_columns_nth {A : Type} (first : list A) (rows : list (list A))
    (c : nat) (column : list A) :
  nth_error (zip_columns first rows) c = Some column ->
  List.length column = List.length rows /\
  forall j row, nth_error rows j = Some row ->
    exists v, nth_error row c = Some v /\ nth_error column j = Some v.
Proof.
  revert rows c. induction first as [|x first IH]; intros rows c; simpl.
  - destruct c; discriminate.
  - destruct (heads rows) as [col0|] eqn:Hheads; [|destruct c; discriminate].
    destruct c as [|c]; simpl.
    + intros Heq. injection Heq as <-. apply heads_nth. exact Hheads.
    + intros Hc. apply IH in Hc. destruct Hc as [Hlen Hnth].
      rewrite length_map in Hlen. split; [exact Hlen|].
      intros j row Hj.
      destruct (Hnth j (tl row)) as [v [Hv Hcol]].
      { rewrite nth_error_map, Hj. reflexivity. }
      exists v. rewrite nth_error_tl in Hv. split; assumption.
Qed.

Lemma heads_some {A : Type} (rows : list (list A)) :
  (forall row, In row rows -> 0 < List.length row) ->
  exists column, heads rows = Some column.
Proof.
  induction rows as [|row0 rows IH]; intros Hall; simpl.
  - exists []. reflexivity.
  - destruct row0 as [|x row0].
    + specialize (Hall [] (or_introl eq_refl)). simpl in Hall. lia.
    + destruct IH as [xs Hxs]; [intros row Hin; apply Hall; right; exact Hin|].
      rewrite Hxs. eexists. reflexivity.
Qed.

Lemma zip_columns_some {A : Type} (first : list A) (rows : list (list A))
    (c : nat) :
  c < List.length first ->
  (forall row, In row rows -> c < List.length row) ->
  exists column, nth_error (zip_columns first rows) c = Some column.
Proof.
  revert rows c. induction first as [|x first IH]; intros rows c Hc Hall;
    simpl in Hc; [lia|]. simpl.
  destruct (@heads_some A rows) as [col0 Hcol0].
  { intros row Hin. specialize (Hall row Hin). lia. }
  rewrite Hcol0. destruct c as [|c]; simpl.
  - exists col0. reflexivity.
  - apply IH; [lia|].
    intros row Hin. apply in_map_iff in Hin. destruct Hin as [row' [<- Hin]].
    specialize (Hall row' Hin). destruct row'; simpl in *; lia.
Qed.

Lemma stride_from_nth {A : Type} (skip wait : nat) (xs : list A) (j : nat) :
  nth_error (stride_from skip wait xs) j = nth_error xs (wait + j * S skip).
Proof.
  revert wait j. induction xs as [|x xs IH]; intros wait j; simpl.
  - rewrite !nth_error_nil. reflexivity.
  - destruct wait as [|wait].
    + destruct j as [|j]; [reflexivity|].
      simpl. rewrite IH. reflexivity.
    + rewrite IH. reflexivity.
Qed.

Lemma stride_from_length {A : Type} (skip wait : nat) (xs : list A) :
  wait <= skip ->
  List.length (stride_from skip wait xs) =
  (List.length xs + skip - wait) / S skip.
Proof.
  revert wait. induction xs as [|x xs IH]; intros wait Hwait.
  - change (0 = (skip - wait) / S skip).
    symmetry. apply Nat.div_small. lia.
  - destruct wait as [|wait]; cbn [stride_from List.length].
    + rewrite IH by lia.
      replace (S (List.length xs) + skip - 0)
        with (List.length xs + skip - skip + 1 * S skip) by lia.
      rewrite Nat.div_add by lia. lia.
    + rewrite IH by lia. f_equal.
Qed.

Lemma zip_star_nth {A : Type} (rows : list (list A)) (c : nat)
    (column : list A) :
  nth_error (zip_star rows) c = Some column ->
  List.length column = List.length rows /\
  forall j row, nth_error rows j = Some row ->
    exists v, nth_error row c = Some v /\ nth_error column j = Some v.
Proof.
  unfold zip_star. destruct rows as [|first rest].
  - destruct c; discriminate.
  - apply zip_columns_nth.
Qed.

Lemma zip_star_some {A : Type} (rows : list (list A)) (c : nat) :
  rows <> [] ->
  (forall row, In row rows -> c < List.length row) ->
  exists column, nth_error (zip_star rows) c = Some column.
Proof.
  intros Hrows Hall. unfold zip_star.
  destruct rows as [|first rest]; [contradiction|].
  apply zip_columns_some; [|exact Hall].
  apply Hall. left. reflexivity.
Qed.

(** The frames of one column. *)
Lemma frames_of_column (pontos : list (list num)) (ph c : nat)
    (frames : list num) :
  (column <- index (zip_star pontos) c ;; slice_step column ph) = Ok frames ->
  0 < ph /\
  List.length frames = (List.length pontos + ph - 1) / ph /\
  forall j row, nth_error pontos (j * ph) = Some row ->
    exists v, nth_error row c = Some v /\ nth_error frames j = Some v.
Proof.
  intros Heq. apply bind_ok in Heq. destruct Heq as [column [Hcol Heq]].
  apply index_ok in Hcol. apply zip_star_nth in Hcol.
  destruct Hcol as [Hlen Hnth].
  destruct ph as [|skip]; [discriminate|]. injection Heq as <-.
  split; [lia | split].
  - rewrite stride_from_length by lia. rewrite Hlen. f_equal. lia.
  - intros j row Hrow. destruct (Hnth _ _ Hrow) as [v [Hv Hc]].
    exists v. split; [exact Hv|].
    rewrite stride_from_nth. exact Hc.
Qed.

(** X11.  Frame [j] of body [i] is taken from record [j * ph] of the
    trajectory: its x is entry [4*i+1] of that record and its y entry
    [4*i+3]; each body gets the number of records divided by [ph], rounded
    up, frames. *)
Theorem eixos_frames {M : Type} (m : list M) (ph : nat)
    (pontos : list (list num)) (eixos_x eixos_y : list (list num)) :
  eixos m ph pontos = Ok (eixos_x, eixos_y) ->
  List.length eixos_x = List.length m /\
  List.length eixos_y = List.length m /\
  forall i, i < List.length m -> exists fx fy,
    nth_error eixos_x i = Some fx /\ nth_error eixos_y i = Some fy /\
    List.length fx = (List.length pontos + ph - 1) / ph /\
    List.length fy = (List.length pontos + ph - 1) / ph /\
    forall j row, nth_error pontos (j * ph) = Some row ->
      exists x y,
        nth_error row (4 * i + 1) = Some x /\
        nth_error row (4 * i + 3) = Some y /\
        nth_error fx j = Some x /\ nth_error fy j = Some y.
Proof.
  unfold eixos. intros Heq.
  apply bind_ok in Heq. destruct Heq as [eixo_t [_ Heq]].
  apply bind_ok in Heq. destruct Heq as [ex [Hex Heq]].
  apply bind_ok in Heq. destruct Heq as [ey [Hey Heq]].
  injection Heq as <- <-.
  apply comprehension_range_nth in Hex, Hey.
  destruct Hex as [Hlx Hex], Hey as [Hly Hey].
  split; [exact Hlx | split; [exact Hly|]].
  intros i Hi.
  destruct (Hex i Hi) as [fx [Hfx Hbx]], (Hey i Hi) as [fy [Hfy Hby]].
  apply frames_of_column in Hbx, Hby.
  destruct Hbx as [_ [Hnx Hjx]], Hby as [_ [Hny Hjy]].
  exists fx, fy. repeat split; try assumption.
  intros j row Hrow.
  destruct (Hjx j row Hrow) as [x [Hx Hfxj]].
  destruct (Hjy j row Hrow) as [y [Hy Hfyj]].
  exists x, y. repeat split; assumption.
Qed.

(** X12.  For at least one body the cut returns exactly when the step [ph]
    is positive, the trajectory is not empty and each of its records has
    at least four entries per body: a zero step, an empty trajectory or a
    shorter record makes it raise. *)
Theorem eixos_returns {M : Type} (m : list M) (ph : nat)
    (pontos : list (list num)) :
  m <> [] ->
  (exists eixos_x eixos_y, eixos m ph pontos = Ok (eixos_x, eixos_y)) <->
  (0 < ph /\ pontos <> [] /\
   forall row, In row pontos -> 4 * List.length m <= List.length row).
Proof.
  intros Hm.
  assert (Hlm : 0 < List.length m) by (destruct m; [contradiction | simpl; lia]).
  split.
  - intros [ex [ey Heq]].
    assert (Hne : pontos <> []).
    { intros ->. discriminate. }
    unfold eixos in Heq.
    apply bind_ok in Heq. destruct Heq as [eixo_t [_ Heq]].
    apply bind_ok in Heq. destruct Heq as [ex' [_ Heq]].
    apply bind_ok in Heq. destruct Heq as [ey' [Hey _]].
    apply comprehension_range_nth in Hey. destruct Hey as [_ Hey].
    destruct (Hey (List.length m - 1) ltac:(lia)) as [fy [_ Hby]].
    pose proof (frames_of_column _ _ _ Hby) as [Hph _].
    split; [exact Hph | split; [exact Hne|]].
    intros row Hin.
    apply bind_ok in Hby. destruct Hby as [column [Hcol _]].
    apply index_ok in Hcol. apply zip_star_nth in Hcol.
    destruct Hcol as [_ Hnth].
    apply In_nth_error in Hin. destruct Hin as [j Hj].
    destruct (Hnth j row Hj) as [v [Hv _]].
    assert (4 * (List.length m - 1) + 3 < List.length row)
      by (apply nth_error_Some; congruence).
    lia.
  - intros [Hph [Hne Hlong]].
    assert (Hcol : forall c, c < 4 * List.length m ->
              exists column, index (zip_star pontos) c = Ok column).
    { intros c Hc. destruct (@zip_star_some num pontos c Hne) as [column Hcolumn].
      - intros row Hin. specialize (Hlong row Hin). lia.
      - exists column. apply index_ok. exact Hcolumn. }
    assert (Hbody : forall c, c < 4 * List.length m ->
              exists frames,
                (column <- index (zip_star pontos) c ;; slice_step column ph)
                = Ok frames).
    { intros c Hc. destruct (Hcol c Hc) as [column Hcolumn].
      rewrite Hcolumn. simpl. destruct ph as [|skip]; [lia|].
      eexists. reflexivity. }
    unfold eixos. destruct (Hcol 0 ltac:(lia)) as [eixo_t Ht].
    rewrite Ht. cbn [bind].
    destruct (@comprehension_all_ok (list num)
                (fun i => column <- index (zip_star pontos) (4 * i + 1) ;;
                          slice_step column ph) (List.length m))
      as [ex [Hex _]].
    { intros i Hi. apply Hbody. lia. }
    destruct (@comprehension_all_ok (list num)
                (fun i => column <- index (zip_star pontos) (4 * i + 3) ;;
                          slice_step column ph) (List.length m))
      as [ey [Hey _]].
    { intros i Hi. apply Hbody. lia. }
    rewrite Hex. cbn [bind]. rewrite Hey. cbn [bind].
    exists ex, ey. reflexivity.
Qed.

(** *** From the initial positions to the first frame *)

(** X13.  Through the whole script the first frame of every body is its
    initial position: the state is laid out, integrated and cut so that
    frame 0 of [eixos_x[i]] is [posicoes_iniciais[i][0]] and frame 0 of
    [eixos_y[i]] is [posicoes_iniciais[i][1]]. *)
Theorem first_frame_is_initial_position {M : Type} (m : list M)
    (posicoes_iniciais momentos_iniciais : list (list num)) (y0 : list num)
    (f : list func) (t0 h : num) (R : nat) (a : list (list num))
    (b : list num) (fuel : nat) (tf : num) (pontos : list (list num))
    (ph : nat) (eixos_x eixos_y : list (list num)) :
  condicoes_iniciais m posicoes_iniciais momentos_iniciais = Ok y0 ->
  run fuel (__init__ f t0 y0 h R a b) tf = Some (Ok pontos) ->
  eixos m ph pontos = Ok (eixos_x, eixos_y) ->
  forall i, i < List.length m -> exists p x y fx fy,
    nth_error posicoes_iniciais i = Some p /\
    nth_error p 0 = Some x /\ nth_error p 1 = Some y /\
    nth_error eixos_x i = Some fx /\ nth_error eixos_y i = Some fy /\
    nth_error fx 0 = Some x /\ nth_error fy 0 = Some y.
Proof.
  intros Hy0 Hrun Hcut i Hi.
  unfold condicoes_iniciais, range in Hy0.
  apply y0_append_ok in Hy0. destruct Hy0 as [tail [Htail [_ Hlayout]]].
  change ([] ++ tail) with tail in Htail. subst tail.
  destruct (Hlayout i Hi)
    as [p [q [x [px [y [py [Hp [_ [Hx [_ [Hy [_ [H0 [_ [H2 _]]]]]]]]]]]]]]].
  change (0 + i) with i in Hp.
  cbn [run __init__] in Hrun. unfold aplicar in Hrun.
  apply aplicar_loop_ok in Hrun. destruct Hrun as [new [Hpontos _]].
  change (pontos = (t0 :: y0) :: new) in Hpontos. subst pontos.
  unfold eixos in Hcut.
  apply bind_ok in Hcut. destruct Hcut as [eixo_t [_ Hcut]].
  apply bind_ok in Hcut. destruct Hcut as [ex [Hex Hcut]].
  apply bind_ok in Hcut. destruct Hcut as [ey [Hey Hcut]].
  injection Hcut as <- <-.
  apply comprehension_range_nth in Hex, Hey.
  destruct Hex as [_ Hex], Hey as [_ Hey].
  destruct (Hex i Hi) as [fx [Hfx Hbx]], (Hey i Hi) as [fy [Hfy Hby]].
  apply frames_of_column in Hbx, Hby.
  destruct Hbx as [_ [_ Hjx]], Hby as [_ [_ Hjy]].
  destruct (Hjx 0 (t0 :: y0) eq_refl) as [vx [Hvx Hfx0]].
  destruct (Hjy 0 (t0 :: y0) eq_refl) as [vy [Hvy Hfy0]].
  rewrite Nat.add_1_r in Hvx. cbn [nth_error] in Hvx.
  replace (4 * i + 3) with (S (4 * i + 2)) in Hvy by lia.
  cbn [nth_error] in Hvy.
  exists p, x, y, fx, fy. repeat split; try assumption; congruence.
Qed.

(** *** The velocities *)

Variable truediv : num -> num -> result num.

(** X14.  On the state the scripts lay out, the velocity functions of body
    [a] read its momenta: [fxa_] multiplies [1/m[a]] by
    [momentos_iniciais[a][0]] and [fya_] by [momentos_iniciais[a][1]]. *)
Theorem velocities_read_momenta (m : list num)
    (posicoes_iniciais momentos_iniciais : list (list num)) (y0 : list num)
    (a : nat) (t : num) :
  condicoes_iniciais m posicoes_iniciais momentos_iniciais = Ok y0 ->
  a < List.length m ->
  exists ma q px py,
    nth_error m a = Some ma /\
    nth_error momentos_iniciais a = Some q /\
    nth_error q 0 = Some px /\ nth_error q 1 = Some py /\
    fxa_ truediv m a t y0 =
      (inverse <- truediv (of_int 1) ma ;; Ok (mul inverse px)) /\
    fya_ truediv m a t y0 =
      (inverse <- truediv (of_int 1) ma ;; Ok (mul inverse py)).
Proof.
  intros Hy0 Ha. unfold condicoes_iniciais, range in Hy0.
  apply y0_append_ok in Hy0. destruct Hy0 as [tail [Htail [_ Hlayout]]].
  change ([] ++ tail) with tail in Htail. subst tail.
  destruct (Hlayout a Ha)
    as [p [q [x [px [y [py [_ [Hq [_ [Hpx [_ [Hpy [_ [H1 [_ H3]]]]]]]]]]]]]]].
  change (0 + a) with a in Hq.
  destruct (index_lt m Ha) as [ma Hma].
  assert (H1' : index y0 (4 * a + 1) = Ok px) by (apply index_ok; exact H1).
  assert (H3' : index y0 (4 * a + 3) = Ok py) by (apply index_ok; exact H3).
  exists ma, q, px, py.
  split; [apply index_ok; exact Hma|].
  split; [exact Hq | split; [exact Hpx | split; [exact Hpy|]]].
  unfold fxa_, fya_. rewrite Hma. cbn [bind].
  split.
  - destruct (truediv (of_int 1) ma); cbn [bind]; [|reflexivity].
    rewrite H1'. reflexivity.
  - destruct (truediv (of_int 1) ma); cbn [bind]; [|reflexivity].
    rewrite H3'. reflexivity.
Qed.

End ScriptFacts.

(** ** The further theorems at work on the examples *)

Lemma run_reads_matrix_below_subdiagonal_witness :
  map (@row_sum Q _) a_rk2 = map (@row_sum Q _) a_rk2_diagonal /\
  (forall r s, s + 1 < r ->
     (ar <- index a_rk2 r ;; index ar s) =
     (ar <- index a_rk2_diagonal r ;; index ar s)) /\
  run 10 (__init__ [growth] 0%Q [1%Q] (1 # 10)%Q 2 a_rk2 b_rk2) 1%Q =
  run 10 (__init__ [growth] 0%Q [1%Q] (1 # 10)%Q 2 a_rk2_diagonal b_rk2) 1%Q.
Proof.
  assert (Hsums : map (@row_sum Q _) a_rk2 = map (@row_sum Q _) a_rk2_diagonal)
    by reflexivity.
  assert (Hreads : forall r s, s + 1 < r ->
     (ar <- index a_rk2 r ;; index ar s) =
     (ar <- index a_rk2_diagonal r ;; index ar s)).
  { intros r s Hrs. destruct r as [|[|r]]; [lia | lia |].
    destruct r; reflexivity. }
  split; [exact Hsums | split; [exact Hreads|]].
  apply run_reads_matrix_below_subdiagonal; assumption.
Defined.

Lemma run_short_initial_state_witness :
  List.length (@nil Q) < List.length [@growth Q] /\
  run 1 rk_no_state 1%Q = Some (Err IndexError).
Proof.
  split; [simpl; lia|].
  apply run_short_initial_state
    with (f := [@growth Q]) (y0 := @nil Q) (fuel := 0).
  simpl. lia.
Defined.


Lemma aplicar_record_lengths_witness :
  run 10 rk_growth 1%Q = Some (Ok growth_trajectory) /\
  (exists rec, nth_error growth_trajectory 0 = Some rec /\
               List.length rec = S (List.length [1%Q])) /\
  forall k rec, nth_error growth_trajectory (S k) = Some rec ->
                List.length rec = S (List.length [@growth Q]).
Proof.
  split; [vm_compute; reflexivity|].
  apply aplicar_record_lengths
    with (f := [@growth Q]) (t0 := 0%Q) (h := (1 # 10)%Q) (R := 2)
         (a := a_rk2) (b := b_rk2) (fuel := 10) (tf := 1%Q).
  vm_compute. reflexivity.
Defined.

Lemma aplicar_returns_trajectory_witness :
  (0 < 1 # 10)%Q /\
  exists fuel traj, run fuel rk_growth 1%Q = Some (Ok traj).
Proof.
  split; [reflexivity|].
  apply aplicar_returns_trajectory
    with (f := [@growth Q]) (y0 := [1%Q]) (h := (1 # 10)%Q) (R := 2)
         (a := a_rk2) (b := b_rk2).
  - intros fi [<- | []] t ys Hlen.
    destruct ys as [|y [|y' ys]]; try discriminate.
    exists y. reflexivity.
  - simpl. lia.
  - simpl. lia.
  - intros r Hr. destruct r as [|[|r]]; [| |lia].
    + eexists. split; [reflexivity | simpl; lia].
    + eexists. split; [reflexivity | simpl; lia].
  - simpl. lia.
  - reflexivity.
Defined.

Lemma aplicar_instants_on_grid_witness :
  run 10 rk_growth 1%Q = Some (Ok growth_trajectory) /\
  nth_error growth_trajectory 7 = Some [7 # 10; 19487171 # 10000000]%Q /\
  exists t ys,
    [7 # 10; 19487171 # 10000000]%Q = t :: ys /\
    (t == 0 + inject_Z (Z.of_nat 7) * (1 # 10))%Q.
Proof.
  split; [vm_compute; reflexivity|]. split; [reflexivity|].
  apply aplicar_instants_on_grid
    with (f := [@growth Q]) (y0 := [1%Q]) (R := 2) (a := a_rk2) (b := b_rk2)
         (fuel := 10) (tf := 1%Q) (traj := growth_trajectory).
  - vm_compute. reflexivity.
  - reflexivity.
Defined.

Lemma aplicar_reaches_tf_exactly_witness :
  (half_ulp < 1 # 10)%Q /\
  (1 == inject_Z 10000000000 * (1 # 10000000000))%Q /\
  (1 == 0 + inject_Z (Z.of_nat 10) * (1 # 10))%Q /\
  run 10 rk_growth 1%Q = Some (Ok growth_trajectory) /\
  List.length growth_trajectory = 11 /\
  exists t ys, last growth_trajectory [] = t :: ys /\ (t == 1)%Q.
Proof.
  split; [reflexivity|]. split; [reflexivity|]. split; [reflexivity|].
  split; [vm_compute; reflexivity|].
  apply aplicar_reaches_tf_exactly
    with (f := [@growth Q]) (t0 := 0%Q) (y0 := [1%Q]) (h := (1 # 10)%Q)
         (R := 2) (a := a_rk2) (b := b_rk2) (fuel := 10) (m := 9)
         (z := 10000000000%Z).
  - reflexivity.
  - reflexivity.
  - reflexivity.
  - vm_compute. reflexivity.
Defined.

Lemma aplicar_extends_with_tf_witness :
  (1 # 2 <= 1)%Q /\
  run 5 rk_growth (1 # 2)%Q = Some (Ok (firstn 6 growth_trajectory)) /\
  run 10 rk_growth 1%Q = Some (Ok growth_trajectory) /\
  exists more, growth_trajectory = firstn 6 growth_trajectory ++ more.
Proof.
  split; [discriminate|]. split; [vm_compute; reflexivity|].
  split; [vm_compute; reflexivity|].
  apply aplicar_extends_with_tf
    with (f := [@growth Q]) (t0 := 0%Q) (y0 := [1%Q]) (h := (1 # 10)%Q)
         (R := 2) (a := a_rk2) (b := b_rk2) (fuel := 5) (fuel' := 10)
         (tf := (1 # 2)%Q) (tf' := 1%Q).
  - discriminate.
  - vm_compute. reflexivity.
  - vm_compute. reflexivity.
Defined.

Lemma condicoes_iniciais_layout_witness :
  condicoes_iniciais m_ex1 posicoes_iniciais_ex1 momentos_iniciais_ex1
    = Ok y0_ex1 /\
  List.length y0_ex1 = 4 * List.length m_ex1 /\
  forall i, i < List.length m_ex1 -> exists p q x px y py,
    nth_error posicoes_iniciais_ex1 i = Some p /\
    nth_error momentos_iniciais_ex1 i = Some q /\
    nth_error p 0 = Some x /\ nth_error q 0 = Some px /\
    nth_error p 1 = Some y /\ nth_error q 1 = Some py /\
    nth_error y0_ex1 (4 * i) = Some x /\
    nth_error y0_ex1 (4 * i + 1) = Some px /\
    nth_error y0_ex1 (4 * i + 2) = Some y /\
    nth_error y0_ex1 (4 * i + 3) = Some py.
Proof.
  split; [reflexivity|].
  apply condicoes_iniciais_layout. reflexivity.
Defined.

Lemma condicoes_iniciais_returns_witness :
  (exists y0,
     condicoes_iniciais m_ex1 posicoes_iniciais_ex1 momentos_iniciais_ex1
     = Ok y0) /\
  forall i, i < List.length m_ex1 -> exists p q,
    nth_error posicoes_iniciais_ex1 i = Some p /\
    nth_error momentos_iniciais_ex1 i = Some q /\
    2 <= List.length p /\ 2 <= List.length q.
Proof.
  assert (Hy0 : exists y0,
     condicoes_iniciais m_ex1 posicoes_iniciais_ex1 momentos_iniciais_ex1
     = Ok y0) by (exists y0_ex1; reflexivity).
  split; [exact Hy0|].
  apply (proj1 (proj1 (condicoes_iniciais_returns
                         m_ex1 posicoes_iniciais_ex1 momentos_iniciais_ex1))).
  exact Hy0.
Defined.

Lemma eixos_frames_witness :
  eixos m_ex1 2 at_rest_trajectory
    = Ok ([[20; 20]; [-20; -20]]%Z, [[20; 20]; [-20; -20]]%Z) /\
  List.length [[20; 20]; [-20; -20]]%Z = List.length m_ex1 /\
  List.length [[20; 20]; [-20; -20]]%Z = List.length m_ex1 /\
  forall i, i < List.length m_ex1 -> exists fx fy,
    nth_error [[20; 20]; [-20; -20]]%Z i = Some fx /\
    nth_error [[20; 20]; [-20; -20]]%Z i = Some fy /\
    List.length fx = (List.length at_rest_trajectory + 2 - 1) / 2 /\
    List.length fy = (List.length at_rest_trajectory + 2 - 1) / 2 /\
    forall j row, nth_error at_rest_trajectory (j * 2) = Some row ->
      exists x y,
        nth_error row (4 * i + 1) = Some x /\
        nth_error row (4 * i + 3) = Some y /\
        nth_error fx j = Some x /\ nth_error fy j = Some y.
Proof.
  split; [reflexivity|].
  apply eixos_frames. reflexivity.
Defined.

Lemma eixos_returns_witness :
  m_ex1 <> [] /\
  (exists eixos_x eixos_y,
     eixos m_ex1 2 at_rest_trajectory = Ok (eixos_x, eixos_y)) /\
  0 < 2 /\ at_rest_trajectory <> [] /\
  forall row, In row at_rest_trajectory ->
              4 * List.length m_ex1 <= List.length row.
Proof.
  assert (Hm : m_ex1 <> []) by discriminate.
  assert (Hcut : exists eixos_x eixos_y,
     eixos m_ex1 2 at_rest_trajectory = Ok (eixos_x, eixos_y))
    by (eexists; eexists; reflexivity).
  split; [exact Hm | split; [exact Hcut|]].
  apply (proj1 (eixos_returns 2 at_rest_trajectory Hm)). exact Hcut.
Defined.

Lemma first_frame_is_initial_position_witness :
  condicoes_iniciais m_ex1 posicoes_iniciais_ex1 momentos_iniciais_ex1
    = Ok y0_ex1 /\
  run 3 rk_at_rest 3%Z = Some (Ok at_rest_trajectory) /\
  eixos m_ex1 2 at_rest_trajectory
    = Ok ([[20; 20]; [-20; -20]]%Z, [[20; 20]; [-20; -20]]%Z) /\
  forall i, i < List.length m_ex1 -> exists p x y fx fy,
    nth_error posicoes_iniciais_ex1 i = Some p /\
    nth_error p 0 = Some x /\ nth_error p 1 = Some y /\
    nth_error [[20; 20]; [-20; -20]]%Z i = Some fx /\
    nth_error [[20; 20]; [-20; -20]]%Z i = Some fy /\
    nth_error fx 0 = Some x /\ nth_error fy 0 = Some y.
Proof.
  split; [reflexivity|]. split; [vm_compute; reflexivity|].
  split; [reflexivity|].
  intros i Hi.
  apply first_frame_is_initial_position
    with (m := m_ex1) (momentos_iniciais := momentos_iniciais_ex1)
         (y0 := y0_ex1) (f := at_rest) (t0 := 0%Z) (h := 1%Z) (R := 1)
         (a := [[0%Z]]) (b := [1%Z]) (fuel := 3) (tf := 3%Z)
         (pontos := at_rest_trajectory) (ph := 2).
  - reflexivity.
  - vm_compute. reflexivity.
  - reflexivity.
  - exact Hi.
Defined.

Lemma velocities_read_momenta_witness :
  condicoes_iniciais m_ex1_Q posicoes_iniciais_ex1_Q momentos_iniciais_ex1_Q
    = Ok (map inject_Z y0_ex1) /\
  0 < List.length m_ex1_Q /\
  fxa_ Fraction_truediv m_ex1_Q 0 0%Q (map inject_Z y0_ex1)
    = Ok (-2 # 5)%Q /\
  exists ma q px py,
    nth_error m_ex1_Q 0 = Some ma /\
    nth_error momentos_iniciais_ex1_Q 0 = Some q /\
    nth_error q 0 = Some px /\ nth_error q 1 = Some py /\
    fxa_ Fraction_truediv m_ex1_Q 0 0%Q (map inject_Z y0_ex1) =
      (inverse <- Fraction_truediv (of_int 1) ma ;; Ok (mul inverse px)) /\
    fya_ Fraction_truediv m_ex1_Q 0 0%Q (map inject_Z y0_ex1) =
      (inverse <- Fraction_truediv (of_int 1) ma ;; Ok (mul inverse py)).
Proof.
  split; [reflexivity|]. split; [simpl; lia|].
  split; [vm_compute; reflexivity|].
  apply velocities_read_momenta
    with (posicoes_iniciais := posicoes_iniciais_ex1_Q).
  - reflexivity.
  - simpl. lia.
Defined.

(** ** The one-stage tableau *)

Section Euler.

(** With [R = 1], [a = [[0]]] and [b = [1]] the weighted stage sum of an
    equation is its derivative at the instant and the state of the step,
    both in lowest terms. *)
Lemma euler_phi (f' : list func) (t0' : Q) (y0' : list Q) (h' : Q) (fi : func)
    (tk : Q) (yk : list Q) :
  List.length f' <= List.length yk ->
  phi (Build_RK 1 (List.length f') f' t0' y0' h' [[0%Q]] [1%Q]
                (map row_sum [[0%Q]]) 10) fi tk yk =
  (k <- fi (Qred tk) (map Qred (firstn (List.length f') yk)) ;;
   Ok (add (of_int 0) (mul 1%Q k))).
Proof.
  intros Hlen. unfold phi. cbn [R range seq map b].
  unfold sum. cbn [sum_from index nth_error bind].
  rewrite kappa_unshifted by lia.
  cbn [c h n map index nth_error bind].
  assert (Hterms :
    comprehension (fun i => yi <- index yk i ;;
                            Ok (add yi (mul h' (of_int 0))))
                  (range (List.length f')) =
    Ok (map Qred (firstn (List.length f') yk))).
  { apply comprehension_range_nth. split.
    - rewrite length_map. apply firstn_length_le. exact Hlen.
    - intros i Hi. destruct (index_lt yk (i := i) ltac:(lia)) as [yi Hyi].
      exists (Qred yi). split.
      + rewrite nth_error_map, nth_error_firstn.
        destruct (Nat.ltb_spec i (List.length f')); [|lia].
        apply index_ok in Hyi. rewrite Hyi. reflexivity.
      + rewrite Hyi. cbn [bind]. f_equal.
        apply Qred_complete. change (mul h' (of_int 0)) with (Qred (h' * 0)).
        rewrite Qred_correct. ring. }
  rewrite Hterms. cbn [bind].
  assert (Hinstant : add tk (mul h' (row_sum [0%Q])) = Qred tk).
  { apply Qred_complete.
    change (mul h' (row_sum [0%Q])) with (Qred (h' * Qred (0 + 0))).
    rewrite !Qred_correct. ring. }
  rewrite Hinstant.
  destruct (fi (Qred tk) (map Qred (firstn (List.length f') yk))); reflexivity.
Qed.

(** X15.  With the one-stage tableau [R = 1], [a = [[0]]], [b = [1]] a
    step is a step of Euler's method: the next instant is [tk + h] and
    component [i] of the next state is [yk[i] + h * f[i](tk, yk)], each
    derivative being evaluated once, at the instant and the first [len(f)]
    entries of the state in lowest terms; the step returns whenever those
    evaluations do. *)
Theorem euler_tableau_step (f' : list func) (t0' : Q) (y0' : list Q) (h' : Q)
    (self : RK) (tk : Q) (yk : list Q) :
  __init__ f' t0' y0' h' 1 [[0%Q]] [1%Q] = Ok self ->
  List.length f' <= List.length yk ->
  (forall tk' yk', yk1 self tk yk = Ok (tk', yk') ->
     (tk' == tk + h')%Q /\
     forall i, i < List.length f' -> exists yi fi k y',
       nth_error yk i = Some yi /\ nth_error f' i = Some fi /\
       fi (Qred tk) (map Qred (firstn (List.length f') yk)) = Ok k /\
       nth_error yk' i = Some y' /\ (y' == yi + h' * k)%Q) /\
  ((forall i fi, nth_error f' i = Some fi -> exists k,
       fi (Qred tk) (map Qred (firstn (List.length f') yk)) = Ok k) ->
   exists tk' yk', yk1 self tk yk = Ok (tk', yk')).
Proof.
  intros Hinit Hlen. injection Hinit as <-. split.
  - intros tk' yk' Hstep. apply yk1_ok in Hstep.
    destruct Hstep as [-> [_ Hcomp]]. cbn [h n f] in Hcomp |- *.
    split; [apply Fraction_add_eq|].
    intros i Hi. destruct (Hcomp i Hi) as [yi [fi [p [Hyi [Hfi [Hphi Hy']]]]]].
    rewrite euler_phi in Hphi by exact Hlen.
    apply bind_ok in Hphi. destruct Hphi as [k [Hk Hp]].
    injection Hp as <-.
    exists yi, fi, k. eexists.
    split; [exact Hyi | split; [exact Hfi | split; [exact Hk|]]].
    split; [exact Hy'|].
    cbn [add mul Fraction_Number]. unfold Fraction_add, Fraction_mul.
    rewrite !Qred_correct. change (inject_Z 0) with 0%Q. ring.
  - intros Hreturns. unfold yk1. cbn [n f h].
    match goal with
    | |- context [comprehension ?body (range (List.length f'))] =>
        destruct (@comprehension_all_ok Q body (List.length f'))
          as [ys [Hys _]]
    end.
    { intros i Hi. destruct (index_lt yk (i := i) ltac:(lia)) as [yi Hyi].
      destruct (index_lt f' Hi) as [fi Hfi].
      rewrite Hyi, Hfi. cbn [bind].
      change [row_sum [0%Q]] with (map (@row_sum Q _) [[0%Q]]).
      rewrite euler_phi by exact Hlen.
      apply index_ok in Hfi. destruct (Hreturns i fi Hfi) as [k Hk].
      rewrite Hk. cbn [bind]. eexists. reflexivity. }
    rewrite Hys. cbn [bind].
    eexists. eexists. reflexivity.
Qed.

End Euler.

Lemma euler_tableau_step_witness :
  exists self,
    __init__ [growth] 0%Q [1%Q] (1 # 10)%Q 1 [[0%Q]] [1%Q] = Ok self /\
    List.length [@growth Q] <= List.length [1%Q] /\
    (forall tk' yk', yk1 self 0%Q [1%Q] = Ok (tk', yk') ->
       (tk' == 0 + (1 # 10))%Q /\
       forall i, i < List.length [@growth Q] -> exists yi fi k y',
         nth_error [1%Q] i = Some yi /\ nth_error [@growth Q] i = Some fi /\
         fi (Qred 0) (map Qred (firstn (List.length [@growth Q]) [1%Q]))
           = Ok k /\
         nth_error yk' i = Some y' /\ (y' == yi + (1 # 10) * k)%Q) /\
    ((forall i fi, nth_error [@growth Q] i = Some fi -> exists k,
         fi (Qred 0) (map Qred (firstn (List.length [@growth Q]) [1%Q]))
           = Ok k) ->
     exists tk' yk', yk1 self 0%Q [1%Q] = Ok (tk', yk')).
Proof.
  eexists. split; [reflexivity|]. split; [simpl; lia|].
  apply euler_tableau_step with (t0' := 0%Q) (y0' := [1%Q]).
  - reflexivity.
  - simpl. lia.
Defined.

(** ** A step the instant absorbs *)

Section Stalled.

Context {num : Type} {NumOps : Number num}.



End Stalled.

